(** * ColangTranslator: the tokenize-and-rewrite core of [main.py]

    A shallow embedding of [translate_to_conlang] (main.py, lines 82-138):
    the tokenizer [re.findall(r'\w+|[^\w\s]|\s+', text, re.UNICODE)], the
    cursor loop with its two phrase rules and the single-word lookup, and the
    case-preservation step.

    A Python [str] is a sequence of Unicode code points, modelled as
    [list N].  The character classes [\w] and [\s] and the methods
    [str.lower], [str.upper] and [str.isupper] belong to the Python runtime,
    not to the repository: they are the fields of the class [Unicode], and
    the general theorems hold for every instance of it.  The instance
    [ascii_tables] gives the runtime's tables on the ASCII range, where the
    examples of the specification live.

    The dictionary is a Python [dict] from [str] to [str], modelled as a
    [gmap].  Python exceptions are explicit: a computation returns
    [Ok v] or [Raise e].

    Around the rewriter, the pure steps of the rest of [main.py] are
    embedded too: the names of the dictionary files and the text given to
    the parser ([get_available_languages], [load_translation_dict]), the
    re-keying of the parsed dictionary, and the translation loop of the
    program on the lines it reads. *)

From Stdlib Require Import Ascii String.
From stdpp Require Import base option list gmap strings.

Abbreviation str := (list N).
Abbreviation dict := (gmap (list N) (list N)).

(** A string literal of the source, as a list of code points. *)
Definition lit (s : string) : str :=
  N_of_ascii <$> list_ascii_of_string s.

(** ** The runtime's Unicode tables *)

Class Unicode := {
  is_word : N → bool;        (* the class \w of the [re] module       *)
  is_space : N → bool;       (* the class \s of the [re] module       *)
  lower : str → str;         (* str.lower()                           *)
  upper : str → str;         (* str.upper()                           *)
  isupper : str → bool       (* str.isupper()                         *)
}.

(** ** Exceptions *)

Inductive exn := IndexError | KeyError.

Inductive result (A : Type) :=
  | Ok (a : A)
  | Raise (e : exn).
Arguments Ok {A} a.
Arguments Raise {A} e.

#[global] Instance result_ret : MRet result := λ A a, Ok a.
#[global] Instance result_bind : MBind result := λ A B f m,
  match m with
  | Ok a => f a
  | Raise e => Raise e
  end.

(** [a and b] on booleans that may raise, left to right. *)
Definition and_then (a b : result bool) : result bool :=
  x ← a; if (x : bool) then b else mret false.

(** [l[i]] for [0 <= i]. *)
Definition getitem {A} (l : list A) (i : nat) : result A :=
  match l !! i with
  | Some x => Ok x
  | None => Raise IndexError
  end.

(** [k in d] and [d[k]]. *)
Definition contains (d : dict) (k : str) : bool :=
  match d !! k with
  | Some _ => true
  | None => false
  end.

Definition dict_getitem (d : dict) (k : str) : result str :=
  match d !! k with
  | Some v => Ok v
  | None => Raise KeyError
  end.

(** ** The fragment of [re] the source uses

    Both patterns of the source are alternations of atoms that are either
    one character of a class or a greedy, non-empty run of a class. *)

Inductive atom :=
  | One (cls : N → bool)
  | OneOrMore (cls : N → bool).

Abbreviation regex := (list atom).

(** The longest prefix of [s] inside [cls], and what follows it. *)
Fixpoint span (cls : N → bool) (s : str) : str * str :=
  match s with
  | [] => ([], [])
  | c :: rest =>
      if cls c then let '(run, after) := span cls rest in (c :: run, after)
      else ([], s)
  end.

Definition match_atom (a : atom) (s : str) : option (str * str) :=
  match a with
  | One cls =>
      match s with
      | c :: rest => if cls c then Some ([c], rest) else None
      | [] => None
      end
  | OneOrMore cls =>
      match span cls s with
      | (c :: run, after) => Some (c :: run, after)
      | ([], _) => None
      end
  end.

(** The alternatives are tried in order at the start of [s]; the result is
    the matched text and the rest of the input. *)
Fixpoint match_at (re : regex) (s : str) : option (str * str) :=
  match re with
  | [] => None
  | a :: alts =>
      match match_atom a s with
      | Some m => Some m
      | None => match_at alts s
      end
  end.

(** [re.match(re, s)], as a truth value. *)
Definition re_match (re : regex) (s : str) : bool :=
  match match_at re s with
  | Some _ => true
  | None => false
  end.

(** [re.findall]: scan left to right; where no alternative matches, skip one
    character.  Every match of these patterns is non-empty, so a scan of [s]
    takes at most [length s] rounds. *)
Fixpoint findall_from (fuel : nat) (re : regex) (s : str) : list str :=
  match fuel with
  | 0 => []
  | S fuel' =>
      match s with
      | [] => []
      | _ :: skipped =>
          match match_at re s with
          | Some (tok, rest) => tok :: findall_from fuel' re rest
          | None => findall_from fuel' re skipped
          end
      end
  end.

Definition findall (re : regex) (s : str) : list str :=
  findall_from (length s) re s.

Section Rewriter.
Context `{Unicode}.

(** r'\w+' *)
Definition word_re : regex := [OneOrMore is_word].

(** r'\w+|[^\w\s]|\s+' *)
Definition token_re : regex :=
  [OneOrMore is_word;
   One (λ c, negb (is_word c) && negb (is_space c));
   OneOrMore is_space].

(** main.py line 89 *)
Definition tokenize (text : str) : list str := findall token_re text.

(** main.py lines 124-130: the case of [token] put on [translated]. *)
Definition preserve_case (token translated : str) : result str :=
  if isupper token then
    mret (upper translated)
  else
    c1 ← and_then (t0 ← getitem token 0; mret (isupper [t0]))
                  (mret (1 <? length token));
    if (c1 : bool) then
      r0 ← getitem translated 0;
      mret (upper [r0] ++ lower (drop 1 translated))
    else
      t0 ← getitem token 0;
      if isupper [t0] then
        r0 ← getitem translated 0;
        mret (upper [r0])
      else
        mret translated.

(** main.py line 99: [i + 2 < len(tokens) and tokens[i+1].lower() == "all"] *)
Definition all_follows (tokens : list str) (i : nat) : result bool :=
  and_then (mret (i + 2 <? length tokens))
           (t1 ← getitem tokens (i + 1);
            mret (bool_decide (lower t1 = lit "all"))).

(** main.py line 107:
    [i + 2 < len(tokens) and tokens[i+1] == "-" and tokens[i+2].lower() == "bye"] *)
Definition bye_follows (tokens : list str) (i : nat) : result bool :=
  and_then (and_then (mret (i + 2 <? length tokens))
                     (t1 ← getitem tokens (i + 1);
                      mret (bool_decide (t1 = lit "-"))))
           (t2 ← getitem tokens (i + 2);
            mret (bool_decide (lower t2 = lit "bye"))).

(** main.py lines 107-122: the "good-bye" rule and the single-word lookup.
    The result is the replacement and the new cursor. *)
Definition bye_or_word (tokens : list str) (d : dict) (i : nat) (token : str)
  : result (str * nat) :=
  bye ← bye_follows tokens i;
  if (bye : bool) then
    let phrase := lit "good-bye" in
    if contains d phrase then
      translated ← dict_getitem d phrase;
      mret (translated, i + 3)
    else
      mret (token, i + 1)
  else
    let word_lower := lower token in
    if contains d word_lower then
      translated ← dict_getitem d word_lower;
      mret (translated, i + 1)
    else
      mret (token, i + 1).

(** main.py lines 98-122: the replacement of the word at the cursor. *)
Definition lookup (tokens : list str) (d : dict) (i : nat) (token : str)
  : result (str * nat) :=
  all ← all_follows tokens i;
  if (all : bool) then
    let phrase := lower token ++ lit " all" in
    if contains d phrase then
      translated ← dict_getitem d phrase;
      mret (translated, i + 2)
    else
      mret (token, i + 1)
  else
    bye_or_word tokens d i token.

(** main.py lines 94-136: one iteration of the loop at cursor [i].  The
    result is the new cursor and the string appended to
    [translated_tokens]. *)
Definition body (tokens : list str) (d : dict) (i : nat) : result (nat * str) :=
  token ← getitem tokens i;
  if re_match word_re token then
    '(translated, i') ← lookup tokens d i token;
    translated' ← preserve_case token translated;
    mret (i', translated')
  else
    mret (i + 1, token).

(** main.py lines 92-136: [while i < len(tokens)].  [None] is a loop that
    has not finished within [fuel] tests of its condition. *)
Fixpoint while_loop (fuel : nat) (tokens : list str) (d : dict)
    (i : nat) (translated_tokens : list str) : option (result (list str)) :=
  match fuel with
  | 0 => None
  | S fuel' =>
      if i <? length tokens then
        match body tokens d i with
        | Ok (i', translated) =>
            while_loop fuel' tokens d i' (translated_tokens ++ [translated])
        | Raise e => Some (Raise e)
        end
      else Some (Ok translated_tokens)
  end.

(** main.py lines 82-138.  The loop is given one test of its condition per
    token and one more, which is shown below to be enough. *)
Definition translate_to_conlang (text : str) (d : dict) : option (result str) :=
  let tokens := tokenize text in
  out ← while_loop (S (length tokens)) tokens d 0 [];
  Some (translated_tokens ← (out : result (list str)); mret (concat translated_tokens)).

(** ** The rewriter without the "<word> all" rule

    The comparison point of the specification: the same loop, with the
    first of the two phrase rules (main.py lines 99-106) taken out, so that
    a word is tried against the "good-bye" rule and then looked up alone.
    No key of the form "<word> all" is ever formed. *)

Definition body_without_all (tokens : list str) (d : dict) (i : nat)
  : result (nat * str) :=
  token ← getitem tokens i;
  if re_match word_re token then
    '(translated, i') ← bye_or_word tokens d i token;
    translated' ← preserve_case token translated;
    mret (i', translated')
  else
    mret (i + 1, token).

Fixpoint while_loop_without_all (fuel : nat) (tokens : list str) (d : dict)
    (i : nat) (translated_tokens : list str) : option (result (list str)) :=
  match fuel with
  | 0 => None
  | S fuel' =>
      if i <? length tokens then
        match body_without_all tokens d i with
        | Ok (i', translated) =>
            while_loop_without_all fuel' tokens d i' (translated_tokens ++ [translated])
        | Raise e => Some (Raise e)
        end
      else Some (Ok translated_tokens)
  end.

Definition translate_without_all_rule (text : str) (d : dict) : option (result str) :=
  let tokens := tokenize text in
  out ← while_loop_without_all (S (length tokens)) tokens d 0 [];
  Some (translated_tokens ← (out : result (list str)); mret (concat translated_tokens)).

(** The three kinds of token of the specification: a run of word
    characters, one character that is neither a word character nor white
    space, a run of white space. *)
Definition token_class (t : str) : Prop :=
  (t ≠ [] ∧ Forall (λ c, is_word c = true) t) ∨
  (∃ c, t = [c] ∧ is_word c = false ∧ is_space c = false) ∨
  (t ≠ [] ∧ Forall (λ c, is_space c = true) t).

(** Whether a token starts with a word character. *)
Definition starts_word (t : str) : bool :=
  match t with
  | c :: _ => is_word c
  | [] => false
  end.

End Rewriter.

(** ** The case-preservation step without its last rule

    main.py lines 124-128: the step of [preserve_case] with the branch of
    lines 129-130 left out, to compare with. *)

Section TwoRules.
Context `{Unicode}.

Definition preserve_case_two_rules (token translated : str) : result str :=
  if isupper token then
    mret (upper translated)
  else
    c1 ← and_then (t0 ← getitem token 0; mret (isupper [t0]))
                  (mret (1 <? length token));
    if (c1 : bool) then
      r0 ← getitem translated 0;
      mret (upper [r0] ++ lower (drop 1 translated))
    else
      mret translated.

End TwoRules.

(** ** The dictionary files

    The pure steps of [get_available_languages] and [load_translation_dict]:
    what they do to file names and to the parsed dictionary.  Reading the
    directory and the files, and [ast.literal_eval], are the runtime's. *)

(** [s.startswith(p)] *)
Definition startswith (s p : str) : bool :=
  bool_decide (take (length p) s = p).

(** The part of [s] before the last occurrence of [sep], if there is one. *)
Fixpoint before_last (sep s : str) : option str :=
  match s with
  | [] => None
  | c :: s' =>
      match before_last sep s' with
      | Some pre => Some (c :: pre)
      | None => if startswith s sep then Some [] else None
      end
  end.

(** [s.rsplit(sep, 1)[0]] for a separator that is not empty: the split is
    at the last occurrence of [sep]; without one the list is [[s]]. *)
Definition rsplit1_first (s sep : str) : str :=
  default s (before_last sep s).

(** main.py line 32, on the base name of the file found by [glob]. *)
Definition language_of (basename : str) : str :=
  rsplit1_first basename (lit "_translations.txt").

(** main.py line 57: the name of the file opened for [language]. *)
Definition translations_file (language : str) : str :=
  language ++ lit "_translations.txt".

Section Loader.
Context `{Unicode}.

(** main.py line 70: [{k.lower(): v for k, v in translation_dict.items()}],
    on the items of the parsed dictionary in their order. *)
Definition lower_keys (items : list (str * str)) : dict :=
  foldl (λ acc kv, <[lower kv.1 := kv.2]> acc) ∅ items.

End Loader.

Section Cut.
Context `{Unicode}.

(** The text [s1] is cut off cleanly before the character [b]: [b] is not
    a word character, and if it is white space then [s1] does not end with
    white space. *)
Definition clean_cut (s1 : str) (b : N) : Prop :=
  is_word b = false ∧
  (is_space b = true → ∀ a, last s1 = Some a → is_space a = false).

End Cut.

(** ** White space at the ends of a string

    [str.strip] takes away the characters for which [str.isspace] holds;
    these are the characters of the class [\s]. *)

Section Strip.
Context `{Unicode}.

(** [s.lstrip()] *)
Fixpoint lstrip (s : str) : str :=
  match s with
  | [] => []
  | c :: s' => if is_space c then lstrip s' else s
  end.

(** [s.rstrip()] *)
Fixpoint rstrip (s : str) : str :=
  match s with
  | [] => []
  | c :: s' =>
      match rstrip s' with
      | [] => if is_space c then [] else [c]
      | r => c :: r
      end
  end.

(** [s.strip()] *)
Definition strip (s : str) : str := rstrip (lstrip s).

(** main.py lines 36-39: the text that [get_available_languages] gives to
    [ast.literal_eval]; [None] for a file that it skips. *)
Definition listed_literal (file_content : str) : option str :=
  let content := strip file_content in
  if startswith content (lit "translation_dict =") then
    Some (strip (drop (length (lit "translation_dict =")) content))
  else None.

(** main.py lines 63-68: the text that [load_translation_dict] gives to
    [ast.literal_eval]. *)
Definition loaded_literal (file_content : str) : str :=
  if startswith file_content (lit "translation_dict =") then
    strip (drop (length (lit "translation_dict =")) file_content)
  else file_content.

End Strip.

(** ** The translation loop of the program

    main.py lines 175-184, on the lines that [input] returns one after the
    other.  The result is what [print] is given, in order, and how the
    loop ends. *)

Inductive ending :=
  | Quit                    (* break, after "exit"                      *)
  | EndOfInput              (* input() raises EOFError                *)
  | Crashed (e : exn)       (* the call of the rewriter raises          *)
  | Unfinished.             (* the call of the rewriter has no outcome  *)

Section Program.
Context `{Unicode}.

(** f"Goodbye! (Vekhterüszt in {selected_language}!)" *)
Definition goodbye (selected_language : str) : str :=
  lit "Goodbye! (Vekhter" ++ [252%N] ++ lit "szt in "
    ++ selected_language ++ lit "!)".

Fixpoint translation_loop (selected_language : str) (translation_dict : dict)
    (lines : list str) : list str * ending :=
  match lines with
  | [] => ([], EndOfInput)
  | user_input :: rest =>
      if bool_decide (lower user_input = lit "exit") then
        ([goodbye selected_language], Quit)
      else if bool_decide (strip user_input = []) then
        let '(printed, e) := translation_loop selected_language translation_dict rest in
        (lit "Please enter some text to translate." :: printed, e)
      else
        match translate_to_conlang user_input translation_dict with
        | Some (Ok translated_text) =>
            let '(printed, e) := translation_loop selected_language translation_dict rest in
            ((lit "Translated: " ++ translated_text ++ [10%N]) :: printed, e)
        | Some (Raise e) => ([], Crashed e)
        | None => ([], Unfinished)
        end
  end.

End Program.

(** ** The tables on the ASCII range

    Code points 0 to 127 are classified as CPython does.  The table ends
    there: a code point above 127 gets no class and no case from it. *)
Module AsciiTable.

Definition between (lo hi c : N) : bool := (lo <=? c)%N && (c <=? hi)%N.

Definition is_upper_letter (c : N) : bool := between 65 90 c.
Definition is_lower_letter (c : N) : bool := between 97 122 c.
Definition is_digit (c : N) : bool := between 48 57 c.

(** [a-zA-Z0-9_] *)
Definition word (c : N) : bool :=
  is_lower_letter c || is_upper_letter c || is_digit c || (c =? 95)%N.

(** TAB, LF, VT, FF, CR, the separators FS, GS, RS, US, and the space *)
Definition space (c : N) : bool := between 9 13 c || between 28 32 c.

Definition to_lower (c : N) : N := if is_upper_letter c then (c + 32)%N else c.
Definition to_upper (c : N) : N := if is_lower_letter c then (c - 32)%N else c.

(** [str.isupper]: no lower-case letter and at least one upper-case one. *)
Definition all_upper (s : str) : bool :=
  forallb (λ c, negb (is_lower_letter c)) s && existsb is_upper_letter s.

End AsciiTable.

#[global] Instance ascii_tables : Unicode := {|
  is_word := AsciiTable.word;
  is_space := AsciiTable.space;
  lower := fmap AsciiTable.to_lower;
  upper := fmap AsciiTable.to_upper;
  isupper := AsciiTable.all_upper
|}.

(** * The tokenizer *)

Section SpanFacts.
Variable cls : N → bool.

Lemma span_app (s : str) : (span cls s).1 ++ (span cls s).2 = s.
Proof.
  induction s as [|c s IH]; simpl; [done|].
  destruct (cls c); [|done].
  destruct (span cls s) as [run after]; simpl in *. by rewrite IH.
Qed.

(** The run is maximal: what follows it does not start inside [cls]. *)
Lemma span_maximal (s : str) (c : N) (after : str) :
  (span cls s).2 = c :: after → cls c = false.
Proof.
  induction s as [|c' s IH]; simpl; [done|].
  destruct (cls c') eqn:Hc'.
  - destruct (span cls s) as [run after']; simpl in *. exact IH.
  - simpl. intros [= -> _]. exact Hc'.
Qed.

Lemma span_run (s : str) : Forall (λ c, cls c = true) (span cls s).1.
Proof.
  induction s as [|c s IH]; simpl; [constructor|].
  destruct (cls c) eqn:Hc; [|constructor].
  destruct (span cls s) as [run after]; simpl in *. by constructor.
Qed.

Lemma span_starts (c : N) (s : str) :
  cls c = true → span cls (c :: s) = (c :: (span cls s).1, (span cls s).2).
Proof. intros Hc. simpl. rewrite Hc. by destruct (span cls s). Qed.

Lemma span_stops (c : N) (s : str) :
  cls c = false → span cls (c :: s) = ([], c :: s).
Proof. intros Hc. simpl. by rewrite Hc. Qed.
End SpanFacts.

(** A match is a non-empty prefix of the input. *)
Lemma match_atom_prefix (a : atom) (s tok rest : str) :
  match_atom a s = Some (tok, rest) → tok ≠ [] ∧ tok ++ rest = s.
Proof.
  destruct a as [cls|cls]; simpl.
  - destruct s as [|c s]; [done|]. destruct (cls c); [|done].
    by intros [= <- <-].
  - pose proof (span_app cls s) as Happ.
    destruct (span cls s) as [[|c run] after]; [done|].
    intros [= <- <-]. done.
Qed.

Lemma match_at_prefix (re : regex) (s tok rest : str) :
  match_at re s = Some (tok, rest) → tok ≠ [] ∧ tok ++ rest = s.
Proof.
  induction re as [|a alts IH]; simpl; [done|].
  destruct (match_atom a s) as [[tok' rest']|] eqn:Ha; [|exact IH].
  intros [= -> ->]. by eapply match_atom_prefix.
Qed.

Lemma match_at_shorter (re : regex) (s tok rest : str) :
  match_at re s = Some (tok, rest) → length rest < length s.
Proof.
  intros [Hne <-]%match_at_prefix. rewrite length_app.
  destruct tok; [done|]. simpl. lia.
Qed.

(** Fuel beyond the length of the input changes nothing. *)
Lemma findall_from_fuel (re : regex) (n m : nat) (s : str) :
  length s ≤ n → length s ≤ m → findall_from n re s = findall_from m re s.
Proof.
  revert m s. induction n as [|n IH]; intros m s Hn Hm.
  - destruct s; [|simpl in Hn; lia]. by destruct m.
  - destruct m as [|m]; [destruct s; [done|simpl in Hm; lia]|].
    destruct s as [|c s]; [done|]. cbn [findall_from].
    destruct (match_at re (c :: s)) as [[tok rest]|] eqn:Hm'.
    + apply match_at_shorter in Hm'. simpl in *.
      f_equal. apply IH; lia.
    + simpl in *. apply IH; lia.
Qed.

Lemma findall_unfold (re : regex) (c : N) (s : str) :
  findall re (c :: s) =
    match match_at re (c :: s) with
    | Some (tok, rest) => tok :: findall re rest
    | None => findall re s
    end.
Proof.
  unfold findall. cbn [length findall_from].
  destruct (match_at re (c :: s)) as [[tok rest]|] eqn:Hm; [|done].
  apply match_at_shorter in Hm. simpl in Hm.
  f_equal. apply findall_from_fuel; lia.
Qed.

(** Where some alternative matches at every position, nothing is skipped
    and the matches tile the input. *)
Lemma findall_tiles (re : regex) :
  (∀ c s, is_Some (match_at re (c :: s))) →
  ∀ n s, length s ≤ n → concat (findall_from n re s) = s.
Proof.
  intros Hcover. induction n as [|n IH]; intros s Hn.
  - by destruct s; [|simpl in Hn; lia].
  - destruct s as [|c s]; [done|]. cbn [findall_from].
    destruct (Hcover c s) as [[tok rest] Hm]. rewrite Hm.
    pose proof (match_at_shorter _ _ _ _ Hm) as Hlt.
    apply match_at_prefix in Hm as [_ <-]. simpl in *.
    rewrite IH; [done|lia].
Qed.

Section TokenizerFacts.
Context `{Unicode}.

Lemma re_match_word (t : str) : re_match word_re t = starts_word t.
Proof.
  unfold re_match, word_re. destruct t as [|c t]; [done|].
  cbn [match_at match_atom starts_word].
  destruct (is_word c) eqn:Hc.
  - by rewrite span_starts.
  - by rewrite span_stops.
Qed.

(** Every character starts a token: it is a word character, or neither a
    word character nor white space, or white space. *)
Lemma token_re_covers (c : N) (s : str) : is_Some (match_at token_re (c :: s)).
Proof.
  unfold token_re. cbn [match_at match_atom].
  destruct (is_word c) eqn:Hw.
  - rewrite span_starts by done. eauto.
  - rewrite span_stops by done. cbn [negb andb].
    destruct (is_space c) eqn:Hs; cbn [negb]; [|eauto].
    rewrite span_starts by done. eauto.
Qed.

(** A token starts with the character at the position of the match, and a
    token that starts with a word character ends where the word
    characters end. *)
Lemma token_re_shape (c : N) (s tok rest : str) :
  match_at token_re (c :: s) = Some (tok, rest) →
  (∃ tl, tok = c :: tl) ∧
  (is_word c = true → tok = (span is_word (c :: s)).1 ∧ starts_word rest = false).
Proof.
  intros Hm. pose proof (match_at_prefix _ _ _ _ Hm) as [Hne Happ].
  split.
  { destruct tok as [|c' tl]; [done|]. simpl in Happ.
    injection Happ as -> _. eauto. }
  intros Hw. revert Hm. unfold token_re. cbn [match_at match_atom].
  pose proof (span_maximal is_word (c :: s)) as Hmax.
  rewrite span_starts in * by done. intros [= <- <-]. split; [done|].
  simpl in Hmax. destruct (span is_word s).2 as [|c' after]; [done|].
  simpl. by eapply Hmax.
Qed.

End TokenizerFacts.

Section TokenSequence.
Context `{Unicode}.

Lemma tokenize_nil : tokenize [] = [].
Proof. done. Qed.

Lemma tokenize_cons (c : N) (s : str) :
  ∃ tok rest,
    match_at token_re (c :: s) = Some (tok, rest) ∧
    tokenize (c :: s) = tok :: tokenize rest.
Proof.
  destruct (token_re_covers c s) as [[tok rest] Hm].
  exists tok, rest. split; [done|].
  unfold tokenize. by rewrite findall_unfold, Hm.
Qed.

(** The first token starts with the first character of the text. *)
Lemma tokenize_first (text t : str) :
  tokenize text !! 0 = Some t → ∃ c s tl, text = c :: s ∧ t = c :: tl.
Proof.
  destruct text as [|c s]; [done|].
  destruct (tokenize_cons c s) as (tok & rest & Hm & ->).
  intros [= ->]. apply token_re_shape in Hm as [[tl ->] _]. eauto.
Qed.

(** After a token that starts with a word character comes a token that
    does not. *)
Lemma tokenize_after_word (text : str) (i : nat) (t t' : str) :
  tokenize text !! i = Some t →
  tokenize text !! S i = Some t' →
  starts_word t = true → starts_word t' = false.
Proof.
  remember (length text) as n eqn:Hn. revert text Hn i.
  induction (lt_wf n) as [n _ IH]. intros text -> i.
  destruct text as [|c s]; [done|].
  destruct (tokenize_cons c s) as (tok & rest & Hm & ->).
  pose proof (match_at_shorter _ _ _ _ Hm) as Hlt.
  destruct i as [|i]; simpl.
  - intros [= ->] Hnext Hw.
    apply token_re_shape in Hm as [[tl ->] Hword].
    destruct (Hword Hw) as [_ Hrest].
    apply tokenize_first in Hnext as (c' & s' & tl' & -> & ->).
    exact Hrest.
  - apply (IH (length rest)); [exact Hlt|done].
Qed.

End TokenSequence.

(** * The "<word> all" rule *)

Section AllRule.
Context `{Unicode}.

(** What the runtime's [str.lower] is assumed to satisfy: only a string that
    starts with a word character lower-cases to "all". *)
Hypothesis lower_all_word :
  ∀ s : str, lower s = lit "all" → ∃ c tl, s = c :: tl ∧ is_word c = true.

Lemma all_follows_false (text : str) (i : nat) (t : str) :
  tokenize text !! i = Some t →
  starts_word t = true →
  all_follows (tokenize text) i = Ok false.
Proof.
  intros Hi Hw. unfold all_follows, and_then.
  destruct (i + 2 <? length (tokenize text)) eqn:Hlen; [|done].
  apply Nat.ltb_lt in Hlen.
  destruct (lookup_lt_is_Some_2 (tokenize text) (i + 1)) as [t1 Ht1]; [lia|].
  cbn. unfold getitem. rewrite Ht1. cbn.
  rewrite bool_decide_eq_false_2; [done|].
  intros (c & tl & -> & Hc)%lower_all_word.
  rewrite Nat.add_1_r in Ht1.
  pose proof (tokenize_after_word _ _ _ _ Hi Ht1 Hw) as Hnw.
  simpl in Hnw. congruence.
Qed.

Lemma body_without_all_same (text : str) (d : dict) (i : nat) :
  body (tokenize text) d i = body_without_all (tokenize text) d i.
Proof.
  unfold body, body_without_all, getitem.
  destruct (tokenize text !! i) as [token|] eqn:Hi; [|done].
  cbn [mbind result_bind].
  destruct (re_match word_re token) eqn:Hw; [|done].
  rewrite re_match_word in Hw.
  unfold lookup. by rewrite (all_follows_false _ _ _ Hi Hw).
Qed.

Lemma while_loop_without_all_same (text : str) (d : dict) (fuel i : nat)
    (acc : list str) :
  while_loop fuel (tokenize text) d i acc
  = while_loop_without_all fuel (tokenize text) d i acc.
Proof.
  revert i acc. induction fuel as [|fuel IH]; intros i acc; [done|].
  cbn [while_loop while_loop_without_all].
  rewrite body_without_all_same.
  destruct (i <? _); [|done].
  destruct (body_without_all _ d i) as [[i' translated]|e]; [|done].
  apply IH.
Qed.

End AllRule.

(** The rewriter without the rule reads the dictionary at the key
    "good-bye" and at the lower-cased tokens, and nowhere else. *)

Section Keys.
Context `{Unicode}.

Lemma bye_or_word_keys (tokens : list str) (d d' : dict) (i : nat) (token : str) :
  d' !! lit "good-bye" = d !! lit "good-bye" →
  d' !! lower token = d !! lower token →
  bye_or_word tokens d' i token = bye_or_word tokens d i token.
Proof.
  intros Hbye Hword. unfold bye_or_word, contains, dict_getitem.
  by rewrite Hbye, Hword.
Qed.

Lemma body_without_all_keys (tokens : list str) (d d' : dict) (i : nat) :
  d' !! lit "good-bye" = d !! lit "good-bye" →
  (∀ t, t ∈ tokens → d' !! lower t = d !! lower t) →
  body_without_all tokens d' i = body_without_all tokens d i.
Proof.
  intros Hbye Hwords. unfold body_without_all, getitem.
  destruct (tokens !! i) as [token|] eqn:Hi; [|done].
  cbn [mbind result_bind].
  rewrite (bye_or_word_keys tokens d d'); [done|done|].
  apply Hwords. by eapply list_elem_of_lookup_2.
Qed.

Lemma while_loop_without_all_keys (tokens : list str) (d d' : dict)
    (fuel i : nat) (acc : list str) :
  d' !! lit "good-bye" = d !! lit "good-bye" →
  (∀ t, t ∈ tokens → d' !! lower t = d !! lower t) →
  while_loop_without_all fuel tokens d' i acc
  = while_loop_without_all fuel tokens d i acc.
Proof.
  intros Hbye Hwords. revert i acc.
  induction fuel as [|fuel IH]; intros i acc; [done|].
  cbn [while_loop_without_all].
  rewrite (body_without_all_keys tokens d d') by done.
  destruct (i <? _); [|done].
  destruct (body_without_all tokens d i) as [[i' translated]|e]; [|done].
  apply IH.
Qed.

End Keys.

(** * The cursor *)

(** Run the binds of a computation whose head is known. *)
Ltac run_result := cbn [mbind result_bind mret result_ret].

Lemma bind_Ok_inv {A B} (m : result A) (f : A → result B) (b : B) :
  m ≫= f = Ok b → ∃ a, m = Ok a ∧ f a = Ok b.
Proof. destruct m as [a|e]; [eauto|done]. Qed.

Section Cursor.
Context `{Unicode}.

Lemma bye_or_word_advance (tokens : list str) (d : dict) (i : nat)
    (token translated : str) (i' : nat) :
  bye_or_word tokens d i token = Ok (translated, i') →
  i' = i + 1 ∨ i' = i + 3.
Proof.
  unfold bye_or_word. intros ([] & _ & Hrest)%bind_Ok_inv; revert Hrest.
  - destruct (contains d _).
    + intros (v & _ & [= _ <-])%bind_Ok_inv. by right.
    + intros [= _ <-]. by left.
  - destruct (contains d _).
    + intros (v & _ & [= _ <-])%bind_Ok_inv. by left.
    + intros [= _ <-]. by left.
Qed.

Lemma lookup_advance (tokens : list str) (d : dict) (i : nat)
    (token translated : str) (i' : nat) :
  lookup tokens d i token = Ok (translated, i') →
  i' = i + 1 ∨ i' = i + 2 ∨ i' = i + 3.
Proof.
  unfold lookup. intros ([] & _ & Hrest)%bind_Ok_inv; revert Hrest.
  - destruct (contains d _).
    + intros (v & _ & [= _ <-])%bind_Ok_inv. auto.
    + intros [= _ <-]. auto.
  - intros [->| ->]%bye_or_word_advance; auto.
Qed.

(** An iteration that completes moves the cursor forward by 1, 2 or 3. *)
Lemma body_advance (tokens : list str) (d : dict) (i i' : nat) (out : str) :
  body tokens d i = Ok (i', out) →
  i' = i + 1 ∨ i' = i + 2 ∨ i' = i + 3.
Proof.
  unfold body. intros (token & _ & Hrest)%bind_Ok_inv; revert Hrest.
  destruct (re_match word_re token).
  - intros ([translated j] & Hlook & Hcase)%bind_Ok_inv.
    apply bind_Ok_inv in Hcase as (translated' & _ & [= <- _]).
    by eapply lookup_advance.
  - intros [= <- _]. auto.
Qed.

(** The loop finishes once it has one test of its condition per remaining
    token and one more. *)
Lemma while_loop_finishes (tokens : list str) (d : dict) (fuel i : nat)
    (acc : list str) :
  length tokens - i < fuel → is_Some (while_loop fuel tokens d i acc).
Proof.
  revert i acc. induction fuel as [|fuel IH]; intros i acc Hfuel; [lia|].
  cbn [while_loop]. destruct (i <? length tokens) eqn:Hi; [|eauto].
  apply Nat.ltb_lt in Hi.
  destruct (body tokens d i) as [[i' translated]|e] eqn:Hbody; [|eauto].
  apply body_advance in Hbody. apply IH. lia.
Qed.

(** More fuel than that does not change the outcome. *)
Lemma while_loop_fuel (tokens : list str) (d : dict) (fuel fuel' i : nat)
    (acc : list str) :
  length tokens - i < fuel → length tokens - i < fuel' →
  while_loop fuel tokens d i acc = while_loop fuel' tokens d i acc.
Proof.
  revert fuel' i acc. induction fuel as [|fuel IH]; intros fuel' i acc Hf Hf'; [lia|].
  destruct fuel' as [|fuel']; [lia|]. cbn [while_loop].
  destruct (i <? length tokens) eqn:Hi; [|done].
  apply Nat.ltb_lt in Hi.
  destruct (body tokens d i) as [[i' translated]|e] eqn:Hbody; [|done].
  apply body_advance in Hbody. apply IH; lia.
Qed.

End Cursor.

(** * The case-preservation step and the phrase rules *)

Section CaseStep.
Context `{Unicode}.

(** With a replacement that is not empty the step returns. *)
Lemma preserve_case_returns (token translated : str) :
  token ≠ [] → translated ≠ [] → ∃ out, preserve_case token translated = Ok out.
Proof.
  destruct token as [|t0 tl]; [done|]. destruct translated as [|r0 rl]; [done|].
  intros _ _. unfold preserve_case, and_then, getitem. cbn.
  destruct (isupper (t0 :: tl)); [eauto|].
  destruct (isupper [t0]); cbn; [|eauto].
  destruct (length tl); eauto.
Qed.

(** With an empty replacement, [translated[0]] raises as soon as the token
    starts with an upper-case character and is not upper-case as a whole. *)
Lemma preserve_case_raises (t0 : N) (tl : str) :
  isupper (t0 :: tl) = false → isupper [t0] = true →
  preserve_case (t0 :: tl) [] = Raise IndexError.
Proof.
  intros Hall Hfirst. unfold preserve_case, and_then, getitem. cbn.
  rewrite Hall, Hfirst. cbn. by destruct (length tl).
Qed.

(** A word kept as it is, for want of an entry, still goes through the
    step: if it starts with an upper-case character, has more characters
    and is not upper-case as a whole, the rest of it is lower-cased. *)
Lemma preserve_case_capitalises (t0 : N) (tl : str) :
  isupper (t0 :: tl) = false → isupper [t0] = true → tl ≠ [] →
  preserve_case (t0 :: tl) (t0 :: tl) = Ok (upper [t0] ++ lower tl).
Proof.
  intros Hall Hfirst Htl. unfold preserve_case, and_then, getitem. cbn.
  rewrite Hall, Hfirst. cbn. by destruct tl.
Qed.

(** Where the "good-bye" pattern is present and its key is not, the word is
    kept whatever the dictionary holds for it. *)
Lemma bye_absent_keeps_token (tokens : list str) (d : dict) (i : nat)
    (token : str) :
  bye_follows tokens i = Ok true → d !! lit "good-bye" = None →
  bye_or_word tokens d i token = Ok (token, i + 1).
Proof.
  intros Hbye Hkey. unfold bye_or_word, contains.
  rewrite Hbye. run_result. by rewrite Hkey.
Qed.

Lemma token_re_class (c : N) (s tok rest : str) :
  match_at token_re (c :: s) = Some (tok, rest) → token_class tok.
Proof.
  unfold token_re. cbn [match_at match_atom].
  pose proof (span_run is_word (c :: s)) as Hword.
  pose proof (span_run is_space (c :: s)) as Hspace.
  destruct (is_word c) eqn:Hw.
  - rewrite span_starts in * by done. intros [= <- _]. by left.
  - rewrite span_stops by done. cbn [negb andb].
    destruct (is_space c) eqn:Hs; cbn [negb].
    + rewrite span_starts in * by done. intros [= <- _]. by right; right.
    + intros [= <- _]. right; left. eauto.
Qed.

Lemma tokenize_classes (text : str) : Forall token_class (tokenize text).
Proof.
  remember (length text) as n eqn:Hn. revert text Hn.
  induction (lt_wf n) as [n _ IH]. intros text ->.
  destruct text as [|c s]; [constructor|].
  destruct (tokenize_cons c s) as (tok & rest & Hm & ->).
  constructor; [by eapply token_re_class|].
  apply (IH (length rest)); [by eapply match_at_shorter|done].
Qed.

Lemma token_class_nonempty (t : str) : token_class t → t ≠ [].
Proof. intros [[? _]|[(c & -> & _)|[? _]]]; done. Qed.

Lemma bye_or_word_returns (tokens : list str) (d : dict) (i : nat) (token : str) :
  (∀ k v, d !! k = Some v → v ≠ []) → token ≠ [] →
  ∃ translated i', bye_or_word tokens d i token = Ok (translated, i')
                   ∧ translated ≠ [].
Proof.
  intros Hd Htok. unfold bye_or_word, bye_follows, and_then, getitem.
  assert (∀ k j, ∃ translated i',
    (if contains d k
     then dict_getitem d k ≫= λ translated, mret (translated, j)
     else mret (token, i + 1)) = Ok (translated, i') ∧ translated ≠ [])
    as Hkey.
  { intros k j. unfold contains, dict_getitem.
    destruct (d !! k) as [v|] eqn:Hk; run_result; eauto. }
  run_result. destruct (i + 2 <? length tokens) eqn:Hlen; run_result; [|apply Hkey].
  apply Nat.ltb_lt in Hlen.
  destruct (lookup_lt_is_Some_2 tokens (i + 1)) as [t1 ->]; [lia|].
  destruct (lookup_lt_is_Some_2 tokens (i + 2)) as [t2 ->]; [lia|].
  run_result. destruct (bool_decide (t1 = lit "-")); run_result; [|apply Hkey].
  destruct (bool_decide (lower t2 = lit "bye")); apply Hkey.
Qed.

Lemma lookup_returns (tokens : list str) (d : dict) (i : nat) (token : str) :
  (∀ k v, d !! k = Some v → v ≠ []) → token ≠ [] →
  ∃ translated i', lookup tokens d i token = Ok (translated, i')
                   ∧ translated ≠ [].
Proof.
  intros Hd Htok. unfold lookup, all_follows, and_then, getitem. run_result.
  destruct (i + 2 <? length tokens) eqn:Hlen; run_result;
    [|by apply bye_or_word_returns].
  apply Nat.ltb_lt in Hlen.
  destruct (lookup_lt_is_Some_2 tokens (i + 1)) as [t1 ->]; [lia|]. run_result.
  destruct (bool_decide (lower t1 = lit "all")); [|by apply bye_or_word_returns].
  unfold contains, dict_getitem.
  destruct (d !! _) as [v|] eqn:Hk; run_result; eauto.
Qed.

Lemma body_returns (tokens : list str) (d : dict) (i : nat) :
  (∀ k v, d !! k = Some v → v ≠ []) →
  Forall (λ t, t ≠ []) tokens → i < length tokens →
  ∃ r, body tokens d i = Ok r.
Proof.
  intros Hd Htoks Hi. unfold body, getitem.
  destruct (lookup_lt_is_Some_2 tokens i Hi) as [token Htok]. rewrite Htok.
  run_result.
  assert (token ≠ []) as Hne.
  { rewrite Forall_lookup in Htoks. by eapply Htoks. }
  destruct (re_match word_re token); [|eauto].
  destruct (lookup_returns tokens d i token Hd Hne) as (tr & i' & -> & Htr).
  run_result.
  destruct (preserve_case_returns token tr Hne Htr) as [out ->]. eauto.
Qed.

Lemma while_loop_returns (tokens : list str) (d : dict) (fuel i : nat)
    (acc : list str) :
  (∀ k v, d !! k = Some v → v ≠ []) →
  Forall (λ t, t ≠ []) tokens → length tokens - i < fuel →
  ∃ out, while_loop fuel tokens d i acc = Some (Ok out).
Proof.
  intros Hd Htoks. revert i acc.
  induction fuel as [|fuel IH]; intros i acc Hfuel; [lia|].
  cbn [while_loop]. destruct (i <? length tokens) eqn:Hi; [|eauto].
  apply Nat.ltb_lt in Hi.
  destruct (body_returns tokens d i Hd Htoks Hi) as [[i' translated] Hbody].
  rewrite Hbody. apply body_advance in Hbody. apply IH. lia.
Qed.

(** No empty replacement in the dictionary: the rewrite returns a string. *)
Lemma translate_returns (text : str) (d : dict) :
  (∀ k v, d !! k = Some v → v ≠ []) →
  ∃ out, translate_to_conlang text d = Some (Ok out).
Proof.
  intros Hd. unfold translate_to_conlang.
  destruct (while_loop_returns (tokenize text) d (S (length (tokenize text))) 0 [] Hd)
    as [out ->]; [|lia|cbn [mbind option_bind]; eauto].
  eapply Forall_impl; [apply tokenize_classes|]. apply token_class_nonempty.
Qed.

End CaseStep.

(** * The ASCII tables satisfy what is assumed of [str.lower] *)

Lemma ascii_lower_all (s : str) :
  lower s = lit "all" → ∃ c tl, s = c :: tl ∧ is_word c = true.
Proof.
  destruct s as [|c tl]; [done|].
  change (lit "all") with [97; 108; 108]%N. cbn [lower ascii_tables fmap list_fmap].
  intros [= Hc _]. exists c, tl. split; [done|].
  cbn [is_word ascii_tables]. unfold AsciiTable.word.
  revert Hc. unfold AsciiTable.to_lower.
  destruct (AsciiTable.is_upper_letter c) eqn:Hup.
  - intros _. by rewrite orb_true_r.
  - by intros ->.
Qed.

(** * The properties of the specification *)

(** C1, as the code has it.  With the dictionary
    {"you all": "yall-conlang", "you": "yu"} the input "you all" is split
    into "you", " " and "all"; the token after "you" is the white space, the
    phrase rule does not fire and the result is "yu all", not
    "yall-conlang".  The input "you" alone gives "yu". *)
Theorem you_all_phrase_not_matched :
  tokenize (lit "you all") = [lit "you"; lit " "; lit "all"] ∧
  translate_to_conlang (lit "you all")
    (<[ lit "you" := lit "yu" ]> {[ lit "you all" := lit "yall-conlang" ]})
  = Some (Ok (lit "yu all")) ∧
  translate_to_conlang (lit "you")
    (<[ lit "you" := lit "yu" ]> {[ lit "you all" := lit "yall-conlang" ]})
  = Some (Ok (lit "yu")).
Proof. vm_compute. done. Qed.

(** C2, as the code has it.  The case-preservation step does not test the
    replacement for emptiness: with the dictionary {"hello": ""} and the
    input "Hello", [translated[0]] is evaluated on the empty string and the
    call raises IndexError. *)
Theorem empty_replacement_raises :
  translate_to_conlang (lit "Hello") {[ lit "hello" := [] ]}
  = Some (Raise IndexError).
Proof. vm_compute. done. Qed.

(** C3, as the code has it.  With the dictionary {"good": "bon"} and the
    input "good-bye" the "good-bye" pattern is present and its key absent;
    the word "good", which has an entry, is kept without any lookup and the
    result is "good-bye", not "bon-bye". *)
Theorem good_bye_absent_keeps_word :
  tokenize (lit "good-bye") = [lit "good"; lit "-"; lit "bye"] ∧
  bye_follows (tokenize (lit "good-bye")) 0 = Ok true ∧
  contains {[ lit "good" := lit "bon" ]} (lit "good-bye") = false ∧
  contains {[ lit "good" := lit "bon" ]} (lit "good") = true ∧
  translate_to_conlang (lit "good-bye") {[ lit "good" := lit "bon" ]}
  = Some (Ok (lit "good-bye")).
Proof. vm_compute. done. Qed.

(** C4, as the code has it.  The word "HeLLo" has no entry in the
    dictionary {"you": "yu"} and is part of no phrase, yet the
    case-preservation step rewrites it: the output is "Hello", not
    "HeLLo". *)
Theorem unmatched_mixed_case_rewritten :
  contains {[ lit "you" := lit "yu" ]} (lower (lit "HeLLo")) = false ∧
  translate_to_conlang (lit "HeLLo") {[ lit "you" := lit "yu" ]}
  = Some (Ok (lit "Hello")).
Proof. vm_compute. done. Qed.

(** C5.  Provided that only a string starting with a word character
    lower-cases to "all": in the token sequence of any text a token that
    matches r'\w+' is never followed by another one; the condition of the
    "<word> all" rule is false at every word token; [translate_to_conlang]
    agrees, on every text and every dictionary, with the rewriter that has
    no "<word> all" rule; and its outcome is the same for two dictionaries
    that agree on the key "good-bye" and on the lower-cased tokens of the
    text, the only keys that rewriter reads. *)
Theorem all_rule_unreachable `{Unicode}
    (lower_all_word :
       ∀ s : str, lower s = lit "all" → ∃ c tl, s = c :: tl ∧ is_word c = true)
    (text : str) (d : dict) :
  (∀ i t t',
     tokenize text !! i = Some t → tokenize text !! (i + 1) = Some t' →
     re_match word_re t = true → re_match word_re t' = false) ∧
  (∀ i t,
     tokenize text !! i = Some t → re_match word_re t = true →
     all_follows (tokenize text) i = Ok false) ∧
  translate_to_conlang text d = translate_without_all_rule text d ∧
  (∀ d' : dict,
     d' !! lit "good-bye" = d !! lit "good-bye" →
     (∀ t, t ∈ tokenize text → d' !! lower t = d !! lower t) →
     translate_to_conlang text d' = translate_to_conlang text d).
Proof.
  assert (∀ d0, translate_to_conlang text d0 = translate_without_all_rule text d0)
    as Hsame.
  { intros d0. unfold translate_to_conlang, translate_without_all_rule.
    by rewrite while_loop_without_all_same. }
  split; [|split; [|split]].
  - intros i t t' Hi Hi'. rewrite !re_match_word, Nat.add_1_r in *.
    by eapply tokenize_after_word.
  - intros i t Hi Hw. rewrite re_match_word in Hw.
    by eapply all_follows_false.
  - apply Hsame.
  - intros d' Hbye Hwords. rewrite !Hsame. unfold translate_without_all_rule.
    by rewrite (while_loop_without_all_keys _ d d').
Qed.

Lemma all_rule_unreachable_witness :
  (∀ s : str, lower s = lit "all" → ∃ c tl, s = c :: tl ∧ is_word c = true) ∧
  re_match word_re (lit " ") = false ∧
  all_follows (tokenize (lit "you all")) 0 = Ok false ∧
  translate_to_conlang (lit "you all")
    (<[ lit "you" := lit "yu" ]> {[ lit "you all" := lit "yall-conlang" ]})
  = translate_without_all_rule (lit "you all")
    (<[ lit "you" := lit "yu" ]> {[ lit "you all" := lit "yall-conlang" ]}) ∧
  translate_to_conlang (lit "you all") {[ lit "you" := lit "yu" ]}
  = translate_to_conlang (lit "you all")
    (<[ lit "you" := lit "yu" ]> {[ lit "you all" := lit "yall-conlang" ]}).
Proof.
  destruct (all_rule_unreachable ascii_lower_all (lit "you all")
              (<[ lit "you" := lit "yu" ]> {[ lit "you all" := lit "yall-conlang" ]}))
    as (Hadjacent & Hcondition & Hsame & Hkeys).
  split; [exact ascii_lower_all|]. split; [|split; [|split]].
  - apply (Hadjacent 0 (lit "you") (lit " ")); reflexivity.
  - apply (Hcondition 0 (lit "you")); reflexivity.
  - exact Hsame.
  - apply Hkeys; [reflexivity|].
    intros t Ht. vm_compute in Ht.
    repeat (apply elem_of_cons in Ht as [->|Ht]; [reflexivity|]).
    by apply elem_of_nil in Ht.
Defined.

(** C6.  For every text, the tokens of the tokenizer concatenated in order
    are the text.  Each token is a run of word characters, one character
    that is neither a word character nor white space, or a run of white
    space, and a token that starts with a word character is followed by
    one that does not. *)
Theorem tokenize_lossless `{Unicode} (text : str) :
  concat (tokenize text) = text ∧
  Forall token_class (tokenize text) ∧
  (∀ i, starts_word <$> tokenize text !! i = Some true →
        starts_word <$> tokenize text !! (i + 1) ≠ Some true).
Proof.
  split; [|split; [apply tokenize_classes|]].
  - apply findall_tiles; [apply token_re_covers|done].
  - intros i Hi Hi'. rewrite Nat.add_1_r in Hi'.
    destruct (tokenize text !! i) as [t|] eqn:Ht; [|done].
    destruct (tokenize text !! S i) as [t'|] eqn:Ht'; [|done].
    injection Hi as Hi. injection Hi' as Hi'.
    pose proof (tokenize_after_word _ _ _ _ Ht Ht' Hi). congruence.
Qed.

Lemma tokenize_lossless_witness :
  concat (tokenize (lit "Hello, world!")) = lit "Hello, world!" ∧
  starts_word <$> tokenize (lit "Hello, world!") !! (0 + 1) ≠ Some true.
Proof.
  destruct (tokenize_lossless (lit "Hello, world!")) as (Hconcat & _ & Hnext).
  split; [exact Hconcat|]. apply Hnext. reflexivity.
Defined.

(** C7.  With the dictionary {"good-bye": "vashtu"} the input "Good-bye"
    gives "Vashtu": the iteration at cursor 0 consumes the three tokens
    "Good", "-", "bye" and puts the case of "Good" on the replacement. *)
Theorem good_bye_phrase :
  tokenize (lit "Good-bye") = [lit "Good"; lit "-"; lit "bye"] ∧
  body (tokenize (lit "Good-bye")) {[ lit "good-bye" := lit "vashtu" ]} 0
  = Ok (3, lit "Vashtu") ∧
  preserve_case (lit "Good") (lit "vashtu") = Ok (lit "Vashtu") ∧
  translate_to_conlang (lit "Good-bye") {[ lit "good-bye" := lit "vashtu" ]}
  = Some (Ok (lit "Vashtu")).
Proof. vm_compute. done. Qed.

(** C8.  With the dictionary {"you": "yu"} the input "you all" gives
    "yu all": "you" is replaced by the single-word lookup and "all", which
    has no entry, is kept. *)
Theorem you_all_falls_back_per_word :
  translate_to_conlang (lit "you all") {[ lit "you" := lit "yu" ]}
  = Some (Ok (lit "yu all")).
Proof. vm_compute. done. Qed.

(** C9.  With the dictionary {"hello": "zorg"}: "HELLO" gives "ZORG",
    "Hello" gives "Zorg" and "hello" gives "zorg". *)
Theorem case_preservation_laws :
  translate_to_conlang (lit "HELLO") {[ lit "hello" := lit "zorg" ]}
  = Some (Ok (lit "ZORG")) ∧
  translate_to_conlang (lit "Hello") {[ lit "hello" := lit "zorg" ]}
  = Some (Ok (lit "Zorg")) ∧
  translate_to_conlang (lit "hello") {[ lit "hello" := lit "zorg" ]}
  = Some (Ok (lit "zorg")).
Proof. vm_compute. done. Qed.

(** C10.  For every text and every dictionary the call terminates: the scan
    of the tokenizer needs no more rounds than the text has characters;
    every iteration of the loop that completes moves the cursor forward by
    1, 2 or 3; the loop finishes within one test of its condition per token
    and one more, whatever further fuel it is given; so the call has an
    outcome, a returned string or a raised exception. *)
Theorem translate_terminates `{Unicode} (text : str) (d : dict) :
  (∀ extra, findall_from (length text + extra) token_re text = tokenize text) ∧
  (∀ i, match body (tokenize text) d i with
        | Ok (i', _) => i' = i + 1 ∨ i' = i + 2 ∨ i' = i + 3
        | Raise _ => True
        end) ∧
  (∀ extra,
     while_loop (S (length (tokenize text)) + extra) (tokenize text) d 0 []
     = while_loop (S (length (tokenize text))) (tokenize text) d 0 []) ∧
  (∃ outcome, translate_to_conlang text d = Some outcome).
Proof.
  split; [|split; [|split]].
  - intros extra. apply findall_from_fuel; lia.
  - intros i. destruct (body _ d i) as [[i' out]|e] eqn:Hbody; [|done].
    by eapply body_advance.
  - intros extra. apply while_loop_fuel; lia.
  - unfold translate_to_conlang.
    destruct (while_loop_finishes (tokenize text) d
                (S (length (tokenize text))) 0 []) as [out ->]; [lia|].
    cbn [mbind option_bind]. eauto.
Qed.
Example tokenize_hello_world :
  tokenize (lit "Hello, world!") = lit <$> ["Hello"; ","; " "; "world"; "!"]%string.
Proof. vm_compute. reflexivity. Qed.

Example translate_hello_world :
  translate_to_conlang (lit "Hello, world!") {[ lit "hello" := lit "zorg" ]}
  = Some (Ok (lit "Zorg, world!")).
Proof. vm_compute. reflexivity. Qed.


(** * Further properties of the rewriter *)

Section LoopFacts.
Context `{Unicode}.

(** With enough fuel the loop obeys the equation of [while]. *)
Lemma while_loop_unfold_gen (tokens : list str) (d : dict) (fuel fuel' i : nat)
    (acc : list str) :
  length tokens - i < fuel → length tokens - i ≤ fuel' →
  while_loop fuel tokens d i acc =
    if i <? length tokens then
      match body tokens d i with
      | Ok (i', translated) => while_loop fuel' tokens d i' (acc ++ [translated])
      | Raise e => Some (Raise e)
      end
    else Some (Ok acc).
Proof.
  intros Hfuel Hfuel'. destruct fuel as [|fuel]; [lia|]. cbn [while_loop].
  destruct (i <? length tokens) eqn:Hi; [|done]. apply Nat.ltb_lt in Hi.
  destruct (body tokens d i) as [[i' translated]|e] eqn:Hbody; [|done].
  apply body_advance in Hbody. apply while_loop_fuel; lia.
Qed.

Lemma while_loop_unfold (tokens : list str) (d : dict) (fuel i : nat)
    (acc : list str) :
  length tokens - i < fuel →
  while_loop fuel tokens d i acc =
    if i <? length tokens then
      match body tokens d i with
      | Ok (i', translated) => while_loop fuel tokens d i' (acc ++ [translated])
      | Raise e => Some (Raise e)
      end
    else Some (Ok acc).
Proof. intros Hfuel. apply while_loop_unfold_gen; lia. Qed.

(** A guarded [d[k]] does not raise. *)
Lemma guarded_getitem {A : Type} (d : dict) (k : str) (f : str → result A)
    (g : result A) :
  (if contains d k then dict_getitem d k ≫= f else g)
  = match d !! k with Some v => f v | None => g end.
Proof. unfold contains, dict_getitem. by destruct (d !! k). Qed.

Lemma bye_or_word_raises (tokens : list str) (d : dict) (i : nat) (token : str)
    (e : exn) :
  bye_or_word tokens d i token = Raise e → e = IndexError.
Proof.
  unfold bye_or_word. rewrite !guarded_getitem.
  unfold bye_follows, and_then, getitem.
  repeat first [progress run_result | case_match];
    first [done | by intros [= <-]].
Qed.

Lemma lookup_raises (tokens : list str) (d : dict) (i : nat) (token : str)
    (e : exn) :
  lookup tokens d i token = Raise e → e = IndexError.
Proof.
  unfold lookup. rewrite !guarded_getitem.
  unfold all_follows, and_then, getitem.
  repeat first [progress run_result | case_match];
    first [done | by intros [= <-] | apply bye_or_word_raises].
Qed.

Lemma preserve_case_raises_index (token translated : str) (e : exn) :
  preserve_case token translated = Raise e → e = IndexError.
Proof.
  unfold preserve_case, and_then, getitem.
  repeat first [progress run_result | case_match];
    first [done | by intros [= <-]].
Qed.

Lemma body_raises (tokens : list str) (d : dict) (i : nat) (e : exn) :
  body tokens d i = Raise e → e = IndexError.
Proof.
  unfold body, getitem. destruct (tokens !! i) as [token|]; [|by intros [= <-]].
  run_result. destruct (re_match word_re token); [|done].
  destruct (lookup tokens d i token) as [[translated i']|e'] eqn:Hlook.
  - run_result.
    destruct (preserve_case token translated) as [out|e'] eqn:Hcase; [done|].
    intros [= <-]. by eapply preserve_case_raises_index.
  - intros [= <-]. by eapply lookup_raises.
Qed.

Lemma while_loop_raises (tokens : list str) (d : dict) (fuel i : nat)
    (acc : list str) (e : exn) :
  while_loop fuel tokens d i acc = Some (Raise e) → e = IndexError.
Proof.
  revert i acc. induction fuel as [|fuel IH]; intros i acc; [done|].
  cbn [while_loop]. destruct (i <? length tokens); [|done].
  destruct (body tokens d i) as [[i' translated]|e'] eqn:Hbody; [apply IH|].
  intros [= <-]. by eapply body_raises.
Qed.

End LoopFacts.

Section MoreRewriterFacts.
Context `{Unicode}.

Lemma tokenize_length (text : str) : length (tokenize text) ≤ length text.
Proof.
  remember (length text) as n eqn:Hn. revert text Hn.
  induction (lt_wf n) as [n _ IH]. intros text ->.
  destruct text as [|c s]; [done|].
  destruct (tokenize_cons c s) as (tok & rest & Hm & ->).
  apply match_at_shorter in Hm.
  specialize (IH (length rest) Hm rest eq_refl). simpl in *. lia.
Qed.

(** The characters of a token are characters of the text. *)
Lemma tokenize_chars (text t : str) (c : N) :
  t ∈ tokenize text → c ∈ t → c ∈ text.
Proof.
  intros Ht Hc.
  assert (concat (tokenize text) = text) as <-
    by (apply findall_tiles; [apply token_re_covers|done]).
  apply list_elem_of_In, in_concat. exists t.
  by rewrite <- !list_elem_of_In.
Qed.

(** From a cursor on, only tokens that do not start with a word character:
    the loop copies them. *)
Lemma while_loop_copies (tokens : list str) (d : dict) (fuel i : nat)
    (acc : list str) :
  Forall (λ t, starts_word t = false) (drop i tokens) →
  length tokens - i < fuel →
  while_loop fuel tokens d i acc = Some (Ok (acc ++ drop i tokens)).
Proof.
  revert i acc. induction fuel as [|fuel IH]; intros i acc Hnw Hfuel; [lia|].
  cbn [while_loop]. destruct (i <? length tokens) eqn:Hi.
  - apply Nat.ltb_lt in Hi.
    destruct (lookup_lt_is_Some_2 tokens i Hi) as [token Htok].
    rewrite (drop_S _ _ _ Htok) in *. apply Forall_cons in Hnw as [Hhd Htl].
    unfold body, getitem. rewrite Htok. run_result.
    rewrite re_match_word, Hhd. run_result.
    rewrite Nat.add_1_r, IH by (done || lia).
    by rewrite <- app_assoc.
  - apply Nat.ltb_ge in Hi. by rewrite drop_ge, app_nil_r.
Qed.

End MoreRewriterFacts.

(** * Further properties *)

(** X1.  The call returns a string whenever no value of the dictionary is
    the empty string.  The only exception it can raise is IndexError, and it
    raises it only for a dictionary that maps some key to the empty
    string. *)
Theorem translate_exceptions `{Unicode} (text : str) (d : dict) :
  ((∀ k v, d !! k = Some v → v ≠ []) →
   ∃ out, translate_to_conlang text d = Some (Ok out)) ∧
  (∀ e, translate_to_conlang text d = Some (Raise e) →
        e = IndexError ∧ ∃ k, d !! k = Some []).
Proof.
  split; [apply translate_returns|].
  intros e Hraise. split.
  - revert Hraise. unfold translate_to_conlang.
    destruct (while_loop _ (tokenize text) d 0 []) as [[out|e']|] eqn:Hloop;
      cbn; [done| |done].
    intros [= <-]. by eapply while_loop_raises.
  - destruct (decide (map_Forall (λ _ v, v ≠ []) d)) as [Hall|Hnot].
    + destruct (translate_returns text d) as [out Hout]; [|congruence].
      intros k v. apply Hall.
    + apply map_not_Forall in Hnot as (k & v & Hk & Hv); [|apply _].
      exists k. destruct v; [done|]. by destruct Hv.
Qed.

Lemma translate_exceptions_witness :
  (∃ out, translate_to_conlang (lit "Hello") {[ lit "hello" := lit "zorg" ]}
          = Some (Ok out)) ∧
  translate_to_conlang (lit "Hello") {[ lit "hello" := [] ]}
  = Some (Raise IndexError) ∧
  ∃ k, ({[ lit "hello" := [] ]} : dict) !! k = Some [].
Proof.
  split.
  - apply (proj1 (translate_exceptions (lit "Hello") {[ lit "hello" := lit "zorg" ]})).
    intros k v [_ <-]%lookup_singleton_Some. done.
  - split; [reflexivity|].
    apply (proj2 (translate_exceptions (lit "Hello") {[ lit "hello" := [] ]})
             IndexError).
    reflexivity.
Defined.

(** X2.  The last rule of the case-preservation step (main.py lines
    129-130, a one-character token that starts with an upper-case character)
    is never taken: a one-character token that starts with an upper-case
    character is upper-case as a whole, which the first rule takes.  For
    every token and every replacement the step gives what the first two
    rules alone give. *)
Theorem single_character_rule_dead `{Unicode} (token translated : str) :
  preserve_case token translated = preserve_case_two_rules token translated.
Proof.
  unfold preserve_case, preserve_case_two_rules, and_then, getitem.
  destruct token as [|t0 [|t1 tl]]; [done| |].
  - cbn. by destruct (isupper [t0]).
  - cbn. destruct (isupper (t0 :: t1 :: tl)); [done|].
    by destruct (isupper [t0]).
Qed.

(** X3.  A text without any word character, that is punctuation and white
    space only, is returned as it is, whatever the dictionary. *)
Theorem nonword_text_unchanged `{Unicode} (text : str) (d : dict) :
  Forall (λ c, is_word c = false) text →
  translate_to_conlang text d = Some (Ok text).
Proof.
  intros Htext. unfold translate_to_conlang.
  rewrite while_loop_copies; [| |lia].
  - cbn. rewrite drop_0.
    assert (concat (tokenize text) = text) as ->
      by (apply findall_tiles; [apply token_re_covers|done]). done.
  - rewrite drop_0. apply Forall_forall. intros t Ht.
    destruct t as [|c tl]; [done|]. simpl.
    rewrite Forall_forall in Htext. apply Htext.
    eapply tokenize_chars; [done|]. apply elem_of_cons. by left.
Qed.

Lemma nonword_text_unchanged_witness :
  translate_to_conlang (lit "... -- ?!") {[ lit "hello" := lit "zorg" ]}
  = Some (Ok (lit "... -- ?!")).
Proof.
  apply nonword_text_unchanged. vm_compute.
  repeat constructor.
Defined.

(** X4.  The tokenizer yields at most one token per character of the text,
    so the loop is over after at most [len(text)] iterations: with one test
    of its condition per character and one more it gives the outcome of
    the call. *)
Theorem loop_linear_in_text `{Unicode} (text : str) (d : dict) :
  length (tokenize text) ≤ length text ∧
  (out ← while_loop (S (length text)) (tokenize text) d 0 [];
   Some (translated_tokens ← (out : result (list str));
         mret (concat translated_tokens)))
  = translate_to_conlang text d.
Proof.
  pose proof (tokenize_length text) as Hlen. split; [done|].
  unfold translate_to_conlang.
  by rewrite (while_loop_fuel _ d (S (length text)) (S (length (tokenize text))))
    by lia.
Qed.

(** * Cutting a text at a separator *)

Section SpanCut.
Variable cls : N → bool.

(** A run stops at a character outside the class. *)
Lemma span_app_stop (s : str) (b : N) (r : str) :
  cls b = false →
  span cls (s ++ b :: r) = ((span cls s).1, (span cls s).2 ++ b :: r).
Proof.
  intros Hb. induction s as [|c s IH]; simpl.
  - by rewrite Hb.
  - destruct (cls c); [|done]. rewrite IH. by destruct (span cls s).
Qed.

(** A run that stops inside [s] stops there whatever follows [s]. *)
Lemma span_app_inner (s r : str) :
  (span cls s).2 ≠ [] →
  span cls (s ++ r) = ((span cls s).1, (span cls s).2 ++ r).
Proof.
  induction s as [|c s IH]; simpl; [done|].
  destruct (cls c); [|done].
  destruct (span cls s) as [run after] eqn:Hs; simpl in *.
  intros Hne. by rewrite IH.
Qed.

Lemma span_all (s : str) :
  (span cls s).2 = [] → Forall (λ c, cls c = true) s.
Proof.
  intros Hnil. pose proof (span_app cls s) as Happ.
  rewrite Hnil, app_nil_r in Happ. rewrite <- Happ. apply span_run.
Qed.

Lemma span_whole (s r : str) :
  Forall (λ c, cls c = true) s →
  (∀ b, head r = Some b → cls b = false) →
  span cls (s ++ r) = (s, r).
Proof.
  intros Hs Hr. induction Hs as [|c s Hc _ IH]; simpl.
  - destruct r as [|b r]; [done|]. simpl. by rewrite (Hr b).
  - by rewrite Hc, IH.
Qed.

End SpanCut.

Section TokenizeCut.
Context `{Unicode}.

Lemma clean_cut_tail (c : N) (s rest : str) (tok : str) (b : N) :
  tok ++ rest = c :: s → clean_cut (c :: s) b → clean_cut rest b.
Proof.
  intros Happ [Hw Hs]. split; [done|]. intros Hb a Ha. apply (Hs Hb).
  rewrite <- Happ. destruct rest as [|c' rest'] using rev_ind; [done|].
  rewrite app_assoc, !last_snoc in *. done.
Qed.

Lemma token_re_cut (c : N) (s : str) (b : N) (r tok rest : str) :
  clean_cut (c :: s) b →
  match_at token_re (c :: s) = Some (tok, rest) →
  match_at token_re ((c :: s) ++ b :: r) = Some (tok, rest ++ b :: r).
Proof.
  intros [Hw Hs].
  pose proof (span_app_stop is_word (c :: s) b r Hw) as Hword_cut.
  pose proof (span_app_stop is_space (c :: s) b r) as Hspace_stop.
  pose proof (span_app_inner is_space (c :: s) (b :: r)) as Hspace_inner.
  pose proof (span_all is_space (c :: s)) as Hall.
  cbn [app] in *. unfold token_re. cbn [match_at match_atom].
  rewrite Hword_cut. clear Hword_cut.
  destruct (span is_word (c :: s)) as [[|c' run] after]; cbn [fst snd];
    [|by intros [= <- <-]].
  destruct (negb (is_word c) && negb (is_space c)); [by intros [= <- <-]|].
  destruct (span is_space (c :: s)) as [[|c' run] after'] eqn:Hspace;
    [done|]. cbn [fst snd] in *.
  intros [= <- <-]. destruct (is_space b) eqn:Hb.
  - rewrite Hspace_inner; [done|]. intros ->. specialize (Hall eq_refl).
    destruct (last (c :: s)) as [a|] eqn:Ha.
    + specialize (Hs eq_refl a eq_refl). apply last_Some_elem_of in Ha.
      rewrite Forall_forall in Hall. specialize (Hall a Ha). congruence.
    + by apply last_None in Ha.
  - by rewrite Hspace_stop.
Qed.

(** The tokens of a text cut off cleanly are the tokens of the part before
    the cut followed by those of the part after it. *)
Lemma tokenize_cut (s1 : str) (b : N) (r : str) :
  clean_cut s1 b →
  tokenize (s1 ++ b :: r) = tokenize s1 ++ tokenize (b :: r).
Proof.
  remember (length s1) as n eqn:Hn. revert s1 Hn.
  induction (lt_wf n) as [n _ IH]. intros s1 -> Hcut.
  destruct s1 as [|c s]; [done|].
  destruct (tokenize_cons c s) as (tok & rest & Hm & ->).
  pose proof (match_at_shorter _ _ _ _ Hm) as Hlt.
  pose proof (match_at_prefix _ _ _ _ Hm) as [_ Happ].
  pose proof (token_re_cut c s b r tok rest Hcut Hm) as Hm'.
  change ((c :: s) ++ b :: r) with (c :: (s ++ b :: r)) in *.
  destruct (tokenize_cons c (s ++ b :: r)) as (tok' & rest' & Hm'' & ->).
  rewrite Hm' in Hm''. injection Hm'' as <- <-.
  simpl. f_equal. apply (IH (length rest)); [done|done|].
  by eapply clean_cut_tail.
Qed.

(** One character that is neither a word character nor white space is a
    token. *)
Lemma tokenize_punctuation (p : N) (r : str) :
  is_word p = false → is_space p = false →
  tokenize (p :: r) = [p] :: tokenize r.
Proof.
  intros Hw Hs. destruct (tokenize_cons p r) as (tok & rest & Hm & ->).
  revert Hm. unfold token_re. cbn [match_at match_atom].
  rewrite span_stops, Hw, Hs by done. cbn. by intros [= <- <-].
Qed.

(** A run of white space that is not followed by white space is a token. *)
Lemma tokenize_white_space (c : N) (sep r : str) :
  Forall (λ c, is_word c = false ∧ is_space c = true) (c :: sep) →
  (∀ b, head r = Some b → is_space b = false) →
  tokenize ((c :: sep) ++ r) = (c :: sep) :: tokenize r.
Proof.
  intros Hsep Hr.
  change ((c :: sep) ++ r) with (c :: (sep ++ r)).
  destruct (tokenize_cons c (sep ++ r)) as (tok & rest & Hm & ->).
  revert Hm. unfold token_re. cbn [match_at match_atom].
  pose proof (Forall_inv Hsep) as [Hw Hs].
  rewrite span_stops, Hw, Hs by done. cbn [negb andb].
  change (c :: (sep ++ r)) with ((c :: sep) ++ r).
  rewrite (span_whole is_space (c :: sep) r); [by intros [= <- <-]| |done].
  eapply Forall_impl; [exact Hsep|]. by intros ? [_ ?].
Qed.

End TokenizeCut.

Section LoopCut.
Context `{Unicode}.

Lemma all_follows_true (tokens : list str) (i : nat) :
  all_follows tokens i = Ok true → i + 2 < length tokens.
Proof.
  unfold all_follows, and_then. run_result.
  destruct (i + 2 <? length tokens) eqn:Hlen; [|done].
  by apply Nat.ltb_lt in Hlen.
Qed.

Lemma bye_follows_true (tokens : list str) (i : nat) :
  bye_follows tokens i = Ok true → i + 2 < length tokens.
Proof.
  unfold bye_follows, and_then. run_result.
  destruct (i + 2 <? length tokens) eqn:Hlen; [|done].
  by apply Nat.ltb_lt in Hlen.
Qed.

(** The cursor does not leave the token list. *)
Lemma body_within (tokens : list str) (d : dict) (i i' : nat) (out : str) :
  body tokens d i = Ok (i', out) → i < length tokens → i' ≤ length tokens.
Proof.
  unfold body. intros (token & _ & Hrest)%bind_Ok_inv Hi; revert Hrest.
  destruct (re_match word_re token); [|intros [= <- _]; lia].
  intros ([translated j] & Hlook & Hcase)%bind_Ok_inv.
  apply bind_Ok_inv in Hcase as (translated' & _ & [= <- _]).
  revert Hlook. unfold lookup.
  intros ([] & Hall & Hrest)%bind_Ok_inv; revert Hrest.
  - apply all_follows_true in Hall. rewrite guarded_getitem.
    destruct (d !! _); intros [= _ <-]; lia.
  - unfold bye_or_word.
    intros ([] & Hbye & Hrest)%bind_Ok_inv; revert Hrest;
      rewrite guarded_getitem.
    + apply bye_follows_true in Hbye. destruct (d !! _); intros [= _ <-]; lia.
    + destruct (d !! _); intros [= _ <-]; lia.
Qed.

(** Up to the end of a prefix of the token list on which the iterations
    are those of the prefix alone, the loop is the loop on the prefix. *)
Lemma while_loop_prefix (front back : list str) (d : dict) (fuel' : nat) :
  (∀ i, i < length front → body (front ++ back) d i = body front d i) →
  length back < fuel' →
  ∀ fuel i acc, i ≤ length front → length (front ++ back) - i < fuel →
  while_loop fuel (front ++ back) d i acc =
    match while_loop fuel front d i acc with
    | Some (Ok out) => while_loop fuel' (front ++ back) d (length front) out
    | r => r
    end.
Proof.
  intros Hbody Hfuel'. induction fuel as [|fuel IH]; intros i acc Hi Hfuel; [lia|].
  rewrite length_app in Hfuel.
  destruct (decide (i < length front)) as [Hfront|Hfront].
  - rewrite (while_loop_unfold_gen (front ++ back) d (S fuel) fuel)
      by (rewrite length_app; lia).
    cbn [while_loop].
    replace (i <? length (front ++ back)) with true
      by (symmetry; apply Nat.ltb_lt; rewrite length_app; lia).
    replace (i <? length front) with true
      by (symmetry; by apply Nat.ltb_lt).
    rewrite Hbody by done.
    destruct (body front d i) as [[i' translated]|e] eqn:Hstep; [|done].
    pose proof (body_within _ _ _ _ _ Hstep Hfront) as Hwithin.
    apply body_advance in Hstep.
    apply IH; rewrite ?length_app; lia.
  - assert (i = length front) as -> by lia.
    rewrite (while_loop_fuel (front ++ back) d (S fuel) fuel')
      by (rewrite length_app; lia).
    cbn [while_loop]. by rewrite Nat.ltb_irrefl.
Qed.

Lemma getitem_shift (front back : list str) (j : nat) :
  getitem (front ++ back) (length front + j) = getitem back j.
Proof.
  unfold getitem. rewrite lookup_app_r by lia.
  by replace (length front + j - length front) with j by lia.
Qed.

Lemma ltb_shift (front back : list str) (j : nat) :
  (length front + j <? length (front ++ back)) = (j <? length back).
Proof.
  rewrite length_app.
  destruct (Nat.ltb_spec j (length back));
    [apply Nat.ltb_lt|apply Nat.ltb_ge]; lia.
Qed.

Lemma all_follows_shift (front back : list str) (j : nat) :
  all_follows (front ++ back) (length front + j) = all_follows back j.
Proof.
  unfold all_follows.
  by rewrite <- !Nat.add_assoc, ltb_shift, getitem_shift.
Qed.

Lemma bye_follows_shift (front back : list str) (j : nat) :
  bye_follows (front ++ back) (length front + j) = bye_follows back j.
Proof.
  unfold bye_follows.
  by rewrite <- !Nat.add_assoc, ltb_shift, !getitem_shift.
Qed.

(** An iteration behind a prefix is the iteration without the prefix, with
    the cursor moved by the length of the prefix. *)
Lemma body_shift (front back : list str) (d : dict) (j : nat) :
  body (front ++ back) d (length front + j) =
    match body back d j with
    | Ok (j', out) => Ok (length front + j', out)
    | Raise e => Raise e
    end.
Proof.
  unfold body. rewrite getitem_shift.
  destruct (getitem back j) as [token|e]; [|done]. run_result.
  unfold lookup, bye_or_word.
  rewrite all_follows_shift, bye_follows_shift, !guarded_getitem.
  destruct (re_match word_re token); [|do 2 f_equal; lia].
  destruct (all_follows back j) as [[]|e]; run_result; [| |done].
  - destruct (d !! _); run_result;
      (destruct (preserve_case token _); run_result; [do 2 f_equal; lia|done]).
  - destruct (bye_follows back j) as [[]|e]; run_result; [| |done];
      destruct (d !! _); run_result;
      (destruct (preserve_case token _); run_result; [do 2 f_equal; lia|done]).
Qed.

Lemma while_loop_shift (front back : list str) (d : dict) (fuel j : nat)
    (acc acc' : list str) :
  while_loop fuel (front ++ back) d (length front + j) (acc ++ acc') =
    match while_loop fuel back d j acc' with
    | Some (Ok out) => Some (Ok (acc ++ out))
    | r => r
    end.
Proof.
  revert j acc'. induction fuel as [|fuel IH]; intros j acc'; [done|].
  cbn [while_loop]. rewrite ltb_shift, body_shift.
  destruct (j <? length back); [|done].
  destruct (body back d j) as [[j' out]|e]; [|done].
  by rewrite <- app_assoc, IH.
Qed.

End LoopCut.

Section TranslateCut.
Context `{Unicode}.

(** What the runtime's [str.lower] is assumed to satisfy: only a string that
    starts with a word character lower-cases to "all" or to "bye". *)
Hypothesis lower_all_word :
  ∀ s : str, lower s = lit "all" → ∃ c tl, s = c :: tl ∧ is_word c = true.
Hypothesis lower_bye_word :
  ∀ s : str, lower s = lit "bye" → ∃ c tl, s = c :: tl ∧ is_word c = true.

(** In front of a separator token that is not "-" and does not start with a
    word character, the test of the "good-bye" rule does not look beyond
    the separator. *)
Lemma bye_follows_front (front : list str) (u : str) (back : list str)
    (i : nat) :
  i < length front → starts_word u = false → u ≠ lit "-" →
  bye_follows (front ++ u :: back) i = bye_follows front i.
Proof.
  intros Hi Hu Hminus.
  assert (lower u ≠ lit "bye") as Hbye.
  { intros (c & tl & -> & Hc)%lower_bye_word. simpl in Hu. congruence. }
  unfold bye_follows, and_then, getitem. run_result.
  destruct (decide (i + 2 < length front)) as [Hin|Hout].
  - replace (i + 2 <? length (front ++ u :: back)) with true
      by (symmetry; apply Nat.ltb_lt; rewrite length_app; lia).
    replace (i + 2 <? length front) with true
      by (symmetry; by apply Nat.ltb_lt).
    by rewrite !lookup_app_l by lia.
  - replace (i + 2 <? length front) with false
      by (symmetry; apply Nat.ltb_ge; lia).
    destruct (i + 2 <? length (front ++ u :: back)); [|done]. run_result.
    destruct (decide (i + 1 = length front)) as [Hnext|Hnext].
    + rewrite (lookup_app_r front (u :: back) (i + 1)) by lia.
      replace (i + 1 - length front) with 0 by lia. change ((u :: back) !! 0) with (Some u).
      run_result. by rewrite bool_decide_eq_false_2.
    + destruct (lookup_lt_is_Some_2 front (i + 1)) as [t1 Ht1]; [lia|].
      rewrite (lookup_app_l front (u :: back) (i + 1)), Ht1 by lia. run_result.
      destruct (bool_decide (t1 = lit "-")); [|done]. run_result.
      rewrite (lookup_app_r front (u :: back) (i + 2)) by lia.
      replace (i + 2 - length front) with 0 by lia. change ((u :: back) !! 0) with (Some u).
      run_result. by rewrite bool_decide_eq_false_2.
Qed.

Lemma body_front (s1 : str) (u : str) (s2 text : str) (d : dict) (i : nat) :
  tokenize text = tokenize s1 ++ u :: tokenize s2 →
  starts_word u = false → u ≠ lit "-" →
  i < length (tokenize s1) →
  body (tokenize s1 ++ u :: tokenize s2) d i = body (tokenize s1) d i.
Proof.
  intros Htext Hu Hminus Hi. unfold body, getitem.
  rewrite lookup_app_l by done.
  destruct (tokenize s1 !! i) as [token|] eqn:Htok; [|done]. run_result.
  destruct (re_match word_re token) eqn:Hw; [|done].
  rewrite re_match_word in Hw. unfold lookup.
  rewrite (all_follows_false lower_all_word s1 i token) by done.
  rewrite <- Htext.
  rewrite (all_follows_false lower_all_word text i token);
    [|by rewrite Htext, lookup_app_l|done].
  run_result. rewrite Htext. unfold bye_or_word.
  by rewrite bye_follows_front.
Qed.

(** The rewrite of a text whose tokens are those of [s1], a separator
    token and those of [s2] is made of the rewrites of [s1] and of [s2]. *)
Lemma translate_cut_at_token (s1 : str) (u : str) (s2 text : str) (d : dict) :
  tokenize text = tokenize s1 ++ u :: tokenize s2 →
  starts_word u = false → u ≠ lit "-" →
  translate_to_conlang text d =
    match translate_to_conlang s1 d with
    | Some (Ok out1) =>
        match translate_to_conlang s2 d with
        | Some (Ok out2) => Some (Ok (out1 ++ u ++ out2))
        | r => r
        end
    | r => r
    end.
Proof.
  intros Htext Hu Hminus. unfold translate_to_conlang. rewrite Htext.
  set (front := tokenize s1). set (back := tokenize s2).
  rewrite (while_loop_prefix front (u :: back) d (S (S (length back))));
    [|intros i Hi; by eapply body_front|simpl; lia|lia|lia].
  rewrite (while_loop_fuel front d _ (S (length front)))
    by (rewrite ?length_app; simpl; lia).
  destruct (while_loop (S (length front)) front d 0 []) as [[out1|e]|];
    [|done|done].
  rewrite (while_loop_unfold_gen _ d _ (S (length back)))
    by (rewrite length_app; simpl; lia).
  replace (length front <? length (front ++ u :: back)) with true
    by (symmetry; apply Nat.ltb_lt; rewrite length_app; simpl; lia).
  rewrite <- (Nat.add_0_r (length front)) at 1. rewrite body_shift.
  unfold body at 1, getitem.
  change ((u :: back) !! 0) with (Some u). run_result.
  rewrite re_match_word, Hu.
  change (mret (0 + 1, u)) with (Ok (0 + 1, u) : result (nat * str)).
  cbv beta iota.
  replace (length front + (0 + 1)) with (length (front ++ [u]) + 0)
    by (rewrite length_app; simpl; lia).
  rewrite (cons_middle u front back), app_assoc.
  rewrite <- (app_nil_r (out1 ++ [u])), while_loop_shift.
  destruct (while_loop (S (length back)) back d 0 []) as [[out2|e]|];
    cbn; [|done|done].
  rewrite !concat_app. cbn [concat]. by rewrite app_nil_r, <- app_assoc.
Qed.

End TranslateCut.

Lemma ascii_lower_bye (s : str) :
  lower s = lit "bye" → ∃ c tl, s = c :: tl ∧ is_word c = true.
Proof.
  destruct s as [|c tl]; [done|].
  change (lit "bye") with [98; 121; 101]%N. cbn [lower ascii_tables fmap list_fmap].
  intros [= Hc _]. exists c, tl. split; [done|].
  cbn [is_word ascii_tables]. unfold AsciiTable.word.
  revert Hc. unfold AsciiTable.to_lower.
  destruct (AsciiTable.is_upper_letter c) eqn:Hup.
  - intros _. by rewrite orb_true_r.
  - by intros ->.
Qed.

(** X5.  Provided that only a string starting with a word character
    lower-cases to "all" or to "bye": a punctuation character other than
    "-" (neither a word character nor white space) cuts the text into two
    parts that are rewritten independently.  The rewrite of
    [s1 + p + s2] is the rewrite of [s1], then [p], then the rewrite of
    [s2]; it raises where one of the two raises, the first one first. *)
Theorem translate_splits_at_punctuation `{Unicode}
    (lower_all_word :
       ∀ s : str, lower s = lit "all" → ∃ c tl, s = c :: tl ∧ is_word c = true)
    (lower_bye_word :
       ∀ s : str, lower s = lit "bye" → ∃ c tl, s = c :: tl ∧ is_word c = true)
    (s1 : str) (p : N) (s2 : str) (d : dict) :
  is_word p = false → is_space p = false → p ≠ 45%N →
  translate_to_conlang (s1 ++ p :: s2) d =
    match translate_to_conlang s1 d with
    | Some (Ok out1) =>
        match translate_to_conlang s2 d with
        | Some (Ok out2) => Some (Ok (out1 ++ p :: out2))
        | r => r
        end
    | r => r
    end.
Proof.
  intros Hw Hs Hminus.
  apply (translate_cut_at_token lower_all_word lower_bye_word s1 [p] s2).
  - rewrite tokenize_cut by (split; [done|congruence]).
    by rewrite tokenize_punctuation.
  - done.
  - change (lit "-") with [45%N]. by intros [= ->].
Qed.

Lemma translate_splits_at_punctuation_witness :
  AsciiTable.word 44 = false ∧ AsciiTable.space 44 = false ∧ 44%N ≠ 45%N ∧
  translate_to_conlang (lit "Hello" ++ 44%N :: lit " world!")
    {[ lit "hello" := lit "zorg" ]}
  = Some (Ok (lit "Zorg" ++ 44%N :: lit " world!")).
Proof.
  split; [reflexivity|]. split; [reflexivity|]. split; [done|].
  rewrite (translate_splits_at_punctuation ascii_lower_all ascii_lower_bye);
    [reflexivity|reflexivity|reflexivity|done].
Defined.

(** X6.  Provided that only a string starting with a word character
    lower-cases to "all" or to "bye", and that "-" is not white space: a
    run of white space between a part that does not end with white space
    and a part that does not start with white space cuts the text into two
    parts that are rewritten independently.  In particular words separated
    by blanks are rewritten one by one. *)
Theorem translate_splits_at_white_space `{Unicode}
    (lower_all_word :
       ∀ s : str, lower s = lit "all" → ∃ c tl, s = c :: tl ∧ is_word c = true)
    (lower_bye_word :
       ∀ s : str, lower s = lit "bye" → ∃ c tl, s = c :: tl ∧ is_word c = true)
    (hyphen_not_space : is_space 45 = false)
    (s1 sep s2 : str) (d : dict) :
  sep ≠ [] →
  Forall (λ c, is_word c = false ∧ is_space c = true) sep →
  (∀ a, last s1 = Some a → is_space a = false) →
  (∀ b, head s2 = Some b → is_space b = false) →
  translate_to_conlang (s1 ++ sep ++ s2) d =
    match translate_to_conlang s1 d with
    | Some (Ok out1) =>
        match translate_to_conlang s2 d with
        | Some (Ok out2) => Some (Ok (out1 ++ sep ++ out2))
        | r => r
        end
    | r => r
    end.
Proof.
  intros Hne Hsep Hs1 Hs2. destruct sep as [|c sep]; [done|].
  pose proof (Forall_inv Hsep) as [Hw Hs].
  apply (translate_cut_at_token lower_all_word lower_bye_word s1 (c :: sep) s2).
  - change ((c :: sep) ++ s2) with (c :: (sep ++ s2)).
    rewrite tokenize_cut by (split; [done|by intros _]).
    change (c :: (sep ++ s2)) with ((c :: sep) ++ s2).
    by rewrite tokenize_white_space.
  - done.
  - change (lit "-") with [45%N]. intros [= -> _]. congruence.
Qed.

Lemma translate_splits_at_white_space_witness :
  translate_to_conlang (lit "you" ++ lit " " ++ lit "all")
    (<[ lit "you" := lit "yu" ]> {[ lit "you all" := lit "yall-conlang" ]})
  = Some (Ok (lit "yu" ++ lit " " ++ lit "all")).
Proof.
  rewrite (translate_splits_at_white_space ascii_lower_all ascii_lower_bye).
  - reflexivity.
  - reflexivity.
  - done.
  - repeat constructor.
  - by intros a [= <-].
  - by intros b [= <-].
Defined.

(** * Words *)

Section WordTokens.
Context `{Unicode}.

(** A run of word characters that is not followed by a word character is
    a token. *)
Lemma tokenize_word (c : N) (w r : str) :
  Forall (λ c, is_word c = true) (c :: w) →
  (∀ b, head r = Some b → is_word b = false) →
  tokenize ((c :: w) ++ r) = (c :: w) :: tokenize r.
Proof.
  intros Hword Hr.
  change ((c :: w) ++ r) with (c :: (w ++ r)).
  destruct (tokenize_cons c (w ++ r)) as (tok & rest & Hm & ->).
  revert Hm. unfold token_re. cbn [match_at match_atom].
  change (c :: (w ++ r)) with ((c :: w) ++ r).
  rewrite (span_whole is_word (c :: w) r) by done. by intros [= <- <-].
Qed.


End WordTokens.



(** * Words without an entry, on the ASCII tables *)

Section AsciiCase.
Import AsciiTable.

Lemma upper_not_lower (c : N) : is_upper_letter c = true → is_lower_letter c = false.
Proof.
  unfold is_upper_letter, is_lower_letter, between.
  intros [_ Hle%N.leb_le]%andb_true_iff.
  apply andb_false_iff. left. apply N.leb_gt. lia.
Qed.

Lemma to_lower_fixed (c : N) : to_lower c = c ↔ is_upper_letter c = false.
Proof.
  unfold to_lower. destruct (is_upper_letter c); split; try done. lia.
Qed.

Lemma lower_fixed (s : str) : lower s = s ↔ existsb is_upper_letter s = false.
Proof.
  cbn [lower ascii_tables]. induction s as [|c s IH]; [done|].
  cbn [fmap list_fmap existsb]. rewrite orb_false_iff, <- IH, <- to_lower_fixed.
  split; [by intros [= -> ->]|by intros [-> ->]].
Qed.

Lemma upper_fixed (s : str) :
  forallb (λ c, negb (is_lower_letter c)) s = true → upper s = s.
Proof.
  cbn [upper ascii_tables]. induction s as [|c s IH]; [done|].
  cbn [fmap list_fmap forallb]. intros [Hc Hs]%andb_true_iff.
  unfold to_upper at 1. apply negb_true_iff in Hc. rewrite Hc.
  f_equal. by apply IH.
Qed.

(** The case-preservation step on a word put on itself. *)
Lemma preserve_case_self (t0 : N) (tl : str) :
  preserve_case (t0 :: tl) (t0 :: tl)
  = Ok (t0 :: (if is_upper_letter t0 && existsb is_lower_letter tl
               then lower tl else tl)).
Proof.
  unfold preserve_case, and_then, getitem.
  change ((t0 :: tl) !! 0) with (Some t0). run_result.
  cbn [isupper ascii_tables]. unfold all_upper.
  cbn [forallb existsb]. rewrite orb_false_r.
  destruct (is_upper_letter t0) eqn:Hup0; cbn [orb andb].
  - rewrite (upper_not_lower _ Hup0). cbn [negb andb].
    destruct (forallb (λ c, negb (is_lower_letter c)) tl) eqn:Hnolow.
    + assert (existsb is_lower_letter tl = false) as ->.
      { apply not_true_is_false. intros (c & Hc & Hlow)%existsb_exists.
        rewrite forallb_forall in Hnolow. specialize (Hnolow c Hc).
        by rewrite Hlow in Hnolow. }
      run_result. f_equal. apply upper_fixed. cbn [forallb].
      by rewrite (upper_not_lower _ Hup0).
    + assert (existsb is_lower_letter tl = true) as ->.
      { apply not_false_iff_true. intros Hnone.
        apply not_true_iff_false in Hnolow. apply Hnolow.
        apply forallb_forall. intros c Hc. apply negb_true_iff.
        apply not_true_is_false. intros Hlow.
        assert (existsb is_lower_letter tl = true) by (apply existsb_exists; eauto).
        congruence. }
      destruct tl as [|t1 tl]; [done|].
      change (1 <? length (t0 :: t1 :: tl)) with true. run_result.
      change ((t0 :: t1 :: tl) !! 0) with (Some t0). run_result.
      cbn [drop upper ascii_tables fmap list_fmap app andb].
      unfold to_upper at 1. by rewrite (upper_not_lower _ Hup0).
  - rewrite andb_false_r. run_result.
    destruct (negb (is_lower_letter t0) && forallb _ tl) eqn:Hnolow;
      cbn [andb]; [|done].
    destruct (existsb is_upper_letter tl); [|done].
    f_equal. by apply upper_fixed.
Qed.

End AsciiCase.

Section Unmatched.
Import AsciiTable.



End Unmatched.

(** X8.  On the ASCII tables: a text that is one word without an entry in
    the dictionary is returned with its first character kept and, if that
    character is an upper-case letter and a lower-case letter follows, the
    rest lower-cased.  So the word comes back changed exactly when it
    starts with an upper-case letter and has both a lower-case and an
    upper-case letter after it. *)
Theorem unmatched_word_output (t0 : N) (tl : str) (d : dict) :
  Forall (λ c, is_word c = true) (t0 :: tl) →
  d !! lower (t0 :: tl) = None →
  translate_to_conlang (t0 :: tl) d
  = Some (Ok (t0 :: (if AsciiTable.is_upper_letter t0
                        && existsb AsciiTable.is_lower_letter tl
                     then lower tl else tl))) ∧
  (translate_to_conlang (t0 :: tl) d = Some (Ok (t0 :: tl)) ↔
   ¬ (AsciiTable.is_upper_letter t0 = true ∧
      existsb AsciiTable.is_lower_letter tl = true ∧
      existsb AsciiTable.is_upper_letter tl = true)).
Proof.
  intros Hw Hd.
  assert (translate_to_conlang (t0 :: tl) d
          = Some (preserve_case (t0 :: tl) (t0 :: tl))) as ->.
  { assert (tokenize (t0 :: tl) = [t0 :: tl]) as Htok.
    { rewrite <- (app_nil_r (t0 :: tl)) at 1. by rewrite tokenize_word. }
    unfold translate_to_conlang. rewrite Htok. cbn [length while_loop].
    change (0 <? 1) with true. cbv iota. unfold body, getitem.
    change ([t0 :: tl] !! 0) with (Some (t0 :: tl)). run_result.
    rewrite re_match_word. cbn [starts_word]. rewrite (Forall_inv Hw).
    unfold lookup, all_follows, and_then. run_result.
    change (0 + 2 <? length [t0 :: tl]) with false. run_result.
    unfold bye_or_word, bye_follows, and_then. run_result.
    change (0 + 2 <? length [t0 :: tl]) with false. run_result.
    rewrite guarded_getitem, Hd. run_result.
    destruct (preserve_case (t0 :: tl) (t0 :: tl)) as [out|e]; [|done].
    cbn. by rewrite app_nil_r. }
  rewrite preserve_case_self. split; [done|].
  destruct (AsciiTable.is_upper_letter t0); cbn [andb].
  - destruct (existsb AsciiTable.is_lower_letter tl).
    + split.
      * intros [= Hfix]. apply lower_fixed in Hfix. intros (_ & _ & Hup).
        congruence.
      * intros Hnot. do 3 f_equal. apply lower_fixed.
        apply not_true_is_false. intros Hup. by apply Hnot.
    + split; [|done]. by intros _ (_ & ? & _).
  - split; [|done]. by intros _ (? & _).
Qed.

Lemma unmatched_word_output_witness :
  translate_to_conlang (lit "McAdam") {[ lit "you" := lit "yu" ]}
  = Some (Ok (lit "Mcadam")) ∧
  translate_to_conlang (lit "USA") {[ lit "you" := lit "yu" ]}
  = Some (Ok (lit "USA")).
Proof.
  split.
  - apply (unmatched_word_output 77 (lit "cAdam")); [|reflexivity].
    vm_compute. repeat constructor.
  - apply (unmatched_word_output 85 (lit "SA")); [|reflexivity| ].
    + vm_compute. repeat constructor.
    + vm_compute. by intros (_ & ? & _).
Defined.



(** * The dictionary files *)

Section LoaderFacts.
Context `{Unicode}.

Lemma lower_keys_snoc (items : list (str * str)) (k v : str) :
  lower_keys (items ++ [(k, v)]) = <[lower k := v]> (lower_keys items).
Proof. unfold lower_keys. by rewrite foldl_app. Qed.

Lemma lower_keys_lookup (items : list (str * str)) (k : str) :
  lower_keys items !! k
  = snd <$> last (filter (λ kv, lower kv.1 = k) items).
Proof.
  induction items as [|[k' v'] items IH] using rev_ind; [done|].
  rewrite lower_keys_snoc, filter_app, lookup_insert.
  rewrite filter_cons, filter_nil. cbn [fst snd].
  repeat case_decide; try done.
  - by rewrite last_snoc.
  - by rewrite app_nil_r.
Qed.

End LoaderFacts.

Lemma before_last_length (sep s pre : str) :
  before_last sep s = Some pre → length pre + length sep ≤ length s.
Proof.
  revert pre. induction s as [|c s IH]; intros pre; [done|]. simpl.
  destruct (before_last sep s) as [pre'|].
  - intros [= <-]. specialize (IH pre' eq_refl). simpl. lia.
  - unfold startswith. case_bool_decide as Hstart; [|done].
    intros [= <-]. rewrite <- Hstart, length_take. simpl. lia.
Qed.

Lemma before_last_suffix (sep name : str) :
  sep ≠ [] → before_last sep (name ++ sep) = Some name.
Proof.
  intros Hsep. induction name as [|c name IH].
  - destruct sep as [|c sep]; [done|]. simpl.
    destruct (before_last (c :: sep) sep) as [pre|] eqn:Hpre.
    + apply before_last_length in Hpre. simpl in Hpre. lia.
    + unfold startswith. rewrite firstn_all. by rewrite bool_decide_eq_true_2.
  - simpl. by rewrite IH.
Qed.

(** X10.  The loader's re-keying of the parsed dictionary: the loaded
    dictionary maps a key to the value of the last entry of the file whose
    key lower-cases to it, and has no other keys.  Entries whose keys
    differ in case only collide, and the later one wins. *)
Theorem loaded_dictionary_lookup `{Unicode} (items : list (str * str)) (k : str) :
  lower_keys items !! k
  = snd <$> last (filter (λ kv, lower kv.1 = k) items).
Proof. apply lower_keys_lookup. Qed.

(** X11.  Provided that [str.lower] changes nothing in a string it has
    produced: every key of the loaded dictionary is in lower case. *)
Theorem loaded_keys_lower_case `{Unicode}
    (lower_idempotent : ∀ s : str, lower (lower s) = lower s)
    (items : list (str * str)) (k v : str) :
  lower_keys items !! k = Some v → lower k = k.
Proof.
  rewrite lower_keys_lookup.
  destruct (last (filter _ items)) as [[k' v']|] eqn:Hlast; [|done].
  intros _. apply last_Some_elem_of, list_elem_of_filter in Hlast as [<- _].
  apply lower_idempotent.
Qed.

Lemma ascii_lower_idempotent (s : str) : lower (lower s) = lower s.
Proof.
  cbn [lower ascii_tables]. rewrite <- list_fmap_compose.
  apply list_fmap_ext. intros _ c _. cbn.
  apply to_lower_fixed. unfold AsciiTable.to_lower.
  destruct (AsciiTable.is_upper_letter c) eqn:Hup; [|done]. revert Hup.
  unfold AsciiTable.is_upper_letter, AsciiTable.between.
  intros [Hlo%N.leb_le Hhi%N.leb_le]%andb_true_iff.
  apply andb_false_iff. right. apply N.leb_gt. lia.
Qed.

Lemma loaded_keys_lower_case_witness :
  (∀ s : str, lower (lower s) = lower s) ∧
  lower (lit "hello") = lit "hello".
Proof.
  split; [exact ascii_lower_idempotent|].
  apply (loaded_keys_lower_case ascii_lower_idempotent
           [(lit "Hello", lit "zorg")] (lit "hello") (lit "zorg")).
  reflexivity.
Defined.

Section OneWord.
Context `{Unicode}.

(** A text that is one word: one iteration, the single-word lookup. *)
Lemma translate_one_word (c : N) (w : str) (d : dict) :
  Forall (λ c, is_word c = true) (c :: w) →
  translate_to_conlang (c :: w) d
  = Some (preserve_case (c :: w) (default (c :: w) (d !! lower (c :: w)))).
Proof.
  intros Hw.
  assert (tokenize (c :: w) = [c :: w]) as Htok.
  { rewrite <- (app_nil_r (c :: w)) at 1. by rewrite tokenize_word. }
  unfold translate_to_conlang. rewrite Htok. cbn [length while_loop].
  change (0 <? 1) with true. cbv iota. unfold body, getitem.
  change ([c :: w] !! 0) with (Some (c :: w)). run_result.
  rewrite re_match_word. cbn [starts_word]. rewrite (Forall_inv Hw).
  unfold lookup, all_follows, and_then. run_result.
  change (0 + 2 <? length [c :: w]) with false. run_result.
  unfold bye_or_word, bye_follows, and_then. run_result.
  change (0 + 2 <? length [c :: w]) with false. run_result.
  rewrite guarded_getitem.
  destruct (d !! lower (c :: w)) as [v|]; run_result; cbn [default];
    (destruct (preserve_case (c :: w) _) as [out|e]; [|done]);
    cbn; by rewrite app_nil_r.
Qed.

End OneWord.

(** X12.  Loading and rewriting together: with the dictionary as the
    loader re-keys it, a text that is one word is replaced by the value of
    the last entry of the file whose key equals the word up to case, put in
    the case of the word. *)
Theorem loaded_word_any_case `{Unicode} (items : list (str * str))
    (w k v : str) :
  w ≠ [] → Forall (λ c, is_word c = true) w →
  last (filter (λ kv, lower kv.1 = lower w) items) = Some (k, v) →
  translate_to_conlang w (lower_keys items) = Some (preserve_case w v).
Proof.
  destruct w as [|c w]; [done|]. intros _ Hw Hlast.
  by rewrite translate_one_word, lower_keys_lookup, Hlast.
Qed.

Lemma loaded_word_any_case_witness :
  translate_to_conlang (lit "HELLO")
    (lower_keys [(lit "hello", lit "old"); (lit "Hello", lit "zorg")])
  = Some (Ok (lit "ZORG")).
Proof.
  rewrite (loaded_word_any_case _ (lit "HELLO") (lit "Hello") (lit "zorg")).
  - reflexivity.
  - done.
  - vm_compute. repeat constructor.
  - reflexivity.
Defined.

(** X13.  Provided that only a string starting with a word character
    lower-cases to "all", that [str.lower] changes nothing in a string it
    has produced and leaves "good-bye" as it is: a key that is not in lower
    case is never found.  Adding it to the dictionary, with any value,
    changes the outcome for no text. *)
Theorem mixed_case_key_never_matches `{Unicode}
    (lower_all_word :
       ∀ s : str, lower s = lit "all" → ∃ c tl, s = c :: tl ∧ is_word c = true)
    (lower_idempotent : ∀ s : str, lower (lower s) = lower s)
    (lower_good_bye : lower (lit "good-bye") = lit "good-bye")
    (text : str) (d : dict) (k v : str) :
  lower k ≠ k →
  translate_to_conlang text (<[k := v]> d) = translate_to_conlang text d.
Proof.
  intros Hk. unfold translate_to_conlang.
  rewrite !(while_loop_without_all_same lower_all_word).
  rewrite (while_loop_without_all_keys _ d (<[k := v]> d)); [done| |].
  - apply lookup_insert_ne. intros ->. by rewrite lower_good_bye in Hk.
  - intros t _. apply lookup_insert_ne. intros ->.
    by rewrite lower_idempotent in Hk.
Qed.

Lemma mixed_case_key_never_matches_witness :
  translate_to_conlang (lit "Hello hello")
    (<[ lit "Hello" := lit "zorg" ]> {[ lit "you" := lit "yu" ]})
  = Some (Ok (lit "Hello hello")).
Proof.
  rewrite (mixed_case_key_never_matches ascii_lower_all).
  - reflexivity.
  - apply ascii_lower_idempotent.
  - reflexivity.
  - vm_compute. congruence.
Defined.

(** X14.  The name of a language and the name of its file: the file that
    [load_translation_dict] opens for the language taken from a base name
    is that base name if and only if the base name ends with
    "_translations.txt", in these very letters.  For such a file the
    language is what stands in front of that ending, even where the ending
    occurs in it again. *)
Theorem language_file_round_trip (basename : str) :
  (translations_file (language_of basename) = basename ↔
   ∃ name, basename = name ++ lit "_translations.txt") ∧
  (∀ name, basename = name ++ lit "_translations.txt" →
           language_of basename = name).
Proof.
  assert (∀ name, basename = name ++ lit "_translations.txt" →
                  language_of basename = name) as Hname.
  { intros name ->. unfold language_of, rsplit1_first.
    by rewrite before_last_suffix. }
  split; [|done]. split.
  - intros <-. by eexists.
  - intros [name Hbase]. rewrite (Hname name Hbase). by subst.
Qed.

Lemma language_file_round_trip_witness :
  language_of (lit "my_translations.txt_v2_translations.txt")
  = lit "my_translations.txt_v2" ∧
  translations_file (language_of (lit "Elvish_TRANSLATIONS.TXT"))
  ≠ lit "Elvish_TRANSLATIONS.TXT".
Proof.
  split.
  - by apply (language_file_round_trip (lit "my_translations.txt_v2_translations.txt")).
  - intros Hsame.
    apply (language_file_round_trip (lit "Elvish_TRANSLATIONS.TXT")) in Hsame
      as [name Hname].
    apply (f_equal (λ s : str, drop (length s - 17) s)) in Hname.
    rewrite drop_app_length' in Hname
      by (rewrite length_app; simpl; lia).
    vm_compute in Hname. congruence.
Defined.

(** * The translation loop *)

Section ProgramFacts.
Context `{Unicode}.

Lemma translate_has_outcome (text : str) (d : dict) :
  translate_to_conlang text d ≠ None.
Proof.
  unfold translate_to_conlang.
  destruct (while_loop_finishes (tokenize text) d
              (S (length (tokenize text))) 0 []) as [out ->]; [lia|done].
Qed.

Lemma translate_raise_cause (text : str) (d : dict) (e : exn) :
  translate_to_conlang text d = Some (Raise e) →
  e = IndexError ∧ ∃ k, d !! k = Some [].
Proof.
  intros Hraise. split.
  - revert Hraise. unfold translate_to_conlang.
    destruct (while_loop _ (tokenize text) d 0 []) as [[out|e']|] eqn:Hloop;
      cbn; [done| |done].
    intros [= <-]. by eapply while_loop_raises.
  - destruct (decide (map_Forall (λ _ v, v ≠ []) d)) as [Hall|Hnot].
    + destruct (translate_returns text d) as [out Hout]; [|congruence].
      intros k v. apply Hall.
    + apply map_not_Forall in Hnot as (k & v & Hk & Hv); [|apply _].
      exists k. destruct v; [done|]. by destruct Hv.
Qed.

End ProgramFacts.

(** X15.  How the translation loop of the program ends, for every
    dictionary and every sequence of input lines: never without an outcome
    of the rewriter; by an exception of the rewriter only if that is
    IndexError and the dictionary maps some key to the empty string; and,
    for a dictionary without empty values, either by "exit", which then is
    one of the lines up to letter case, or at the end of the input with no
    such line and after one printed text per line. *)
Theorem translation_loop_endings `{Unicode} (selected_language : str)
    (d : dict) (lines : list str) :
  (translation_loop selected_language d lines).2 ≠ Unfinished ∧
  (∀ e, (translation_loop selected_language d lines).2 = Crashed e →
        e = IndexError ∧ ∃ k, d !! k = Some []) ∧
  ((∀ k v, d !! k = Some v → v ≠ []) →
   ((translation_loop selected_language d lines).2 = Quit ∧
    Exists (λ x, lower x = lit "exit") lines) ∨
   ((translation_loop selected_language d lines).2 = EndOfInput ∧
    Forall (λ x, lower x ≠ lit "exit") lines ∧
    length (translation_loop selected_language d lines).1 = length lines)).
Proof.
  induction lines as [|x lines (IHfin & IHcrash & IHgood)]; cbn [translation_loop].
  { split; [done|]. split; [done|]. intros _. right. by repeat split. }
  case_bool_decide as Hexit.
  { split; [done|]. split; [done|]. intros _. left. split; [done|].
    by constructor. }
  case_bool_decide as Hblank.
  { destruct (translation_loop selected_language d lines) as [printed e].
    cbn [fst snd] in *. split; [done|]. split; [done|].
    intros Hd. destruct (IHgood Hd) as [[-> Hex]|(-> & Hall & Hlen)].
    - left. split; [done|]. by constructor.
    - right. repeat split; [by constructor|cbn [length]; lia]. }
  destruct (translate_to_conlang x d) as [[out|e]|] eqn:Hcall.
  - destruct (translation_loop selected_language d lines) as [printed e].
    cbn [fst snd] in *. split; [done|]. split; [done|].
    intros Hd. destruct (IHgood Hd) as [[-> Hex]|(-> & Hall & Hlen)].
    + left. split; [done|]. by constructor.
    + right. repeat split; [by constructor|cbn [length]; lia].
  - cbn [fst snd]. split; [done|]. split.
    + intros e' [= <-]. by eapply translate_raise_cause.
    + intros Hd. destruct (translate_returns x d Hd) as [out Hout]. congruence.
  - by apply translate_has_outcome in Hcall.
Qed.

Lemma translation_loop_endings_witness :
  (translation_loop (lit "Elvish") {[ lit "hello" := lit "zorg" ]}
     [lit "Hello, you"; lit "  "; lit "Exit"; lit "hello"]).2 = Quit ∧
  (translation_loop (lit "Elvish") {[ lit "hello" := [] ]}
     [lit "hello"; lit "Hello"; lit "exit"]).2 = Crashed IndexError.
Proof.
  split.
  - destruct (translation_loop_endings (lit "Elvish")
                {[ lit "hello" := lit "zorg" ]}
                [lit "Hello, you"; lit "  "; lit "Exit"; lit "hello"])
      as (_ & _ & Hgood).
    destruct Hgood as [[Hquit _]|(_ & Hnone & _)]; [|exact Hquit|].
    + intros k v [_ <-]%lookup_singleton_Some. done.
    + apply Forall_cons in Hnone as [_ Hnone].
      apply Forall_cons in Hnone as [_ Hnone].
      apply Forall_cons in Hnone as [Hnot _]. by destruct Hnot.
  - reflexivity.
Defined.

(** X16.  Whatever follows a line that lower-cases to "exit" is neither
    read nor rewritten: the loop on the lines up to that one prints the
    same texts and ends the same way. *)
Theorem nothing_after_exit `{Unicode} (selected_language : str) (d : dict)
    (before : list str) (x : str) (after : list str) :
  lower x = lit "exit" →
  translation_loop selected_language d (before ++ x :: after)
  = translation_loop selected_language d (before ++ [x]).
Proof.
  intros Hexit. induction before as [|y before IH]; cbn [app translation_loop].
  - by rewrite !bool_decide_eq_true_2.
  - by rewrite IH.
Qed.

Lemma nothing_after_exit_witness :
  translation_loop (lit "Elvish") {[ lit "hello" := lit "zorg" ]}
    ([lit "hello"] ++ lit "EXIT" :: [lit "Hello"; lit "exit"])
  = ([lit "Translated: zorg" ++ [10%N]; goodbye (lit "Elvish")], Quit).
Proof.
  rewrite nothing_after_exit; reflexivity.
Defined.

(** * The text given to the parser *)

Section StripFacts.
Context `{Unicode}.

Lemma lstrip_nonspace (c : N) (s : str) :
  is_space c = false → lstrip (c :: s) = c :: s.
Proof. intros Hc. simpl. by rewrite Hc. Qed.

Lemma lstrip_app_space (ws s : str) :
  Forall (λ c, is_space c = true) ws → lstrip (ws ++ s) = lstrip s.
Proof. induction 1 as [|c ws Hc _ IH]; [done|]. simpl. by rewrite Hc. Qed.

Lemma rstrip_cons_nonspace (e : N) (s : str) :
  is_space e = false → rstrip (e :: s) = e :: rstrip s.
Proof. intros He. simpl. rewrite He. by destruct (rstrip s). Qed.

(** Nothing is taken away in front of a character that is not white
    space. *)
Lemma rstrip_app_nonspace (p : str) (e : N) (s : str) :
  is_space e = false → rstrip (p ++ e :: s) = p ++ e :: rstrip s.
Proof.
  intros He. induction p as [|c p IH]; [by apply rstrip_cons_nonspace|].
  cbn [app rstrip]. rewrite IH. by destruct p.
Qed.

Lemma rstrip_cons (c : N) (s : str) :
  rstrip (c :: s) =
    match rstrip s with
    | [] => if is_space c then [] else [c]
    | r => c :: r
    end.
Proof. done. Qed.

Lemma rstrip_idempotent (s : str) : rstrip (rstrip s) = rstrip s.
Proof.
  induction s as [|c s IH]; [done|]. rewrite rstrip_cons.
  destruct (rstrip s) as [|c' r] eqn:Hr.
  - destruct (is_space c) eqn:Hc; [done|]. simpl. by rewrite Hc.
  - by rewrite rstrip_cons, IH.
Qed.

Lemma lstrip_rstrip (s : str) : lstrip (rstrip s) = rstrip (lstrip s).
Proof.
  induction s as [|c s IH]; [done|]. cbn [lstrip].
  destruct (is_space c) eqn:Hc.
  - rewrite <- IH. cbn [rstrip]. rewrite Hc.
    destruct (rstrip s) as [|c' r]; [done|]. cbn [lstrip]. by rewrite Hc.
  - rewrite rstrip_cons_nonspace by done. by apply lstrip_nonspace.
Qed.

Lemma strip_rstrip (s : str) : strip (rstrip s) = strip s.
Proof. unfold strip. by rewrite lstrip_rstrip, rstrip_idempotent. Qed.

Lemma startswith_app (p s : str) : startswith (p ++ s) p = true.
Proof. unfold startswith. by rewrite bool_decide_eq_true, take_app_length. Qed.

Lemma startswith_inv (s p : str) :
  startswith s p = true → s = p ++ drop (length p) s.
Proof.
  unfold startswith. rewrite bool_decide_eq_true. intros Hp.
  by rewrite <- Hp at 1; rewrite take_drop.
Qed.

End StripFacts.

(** X17.  Provided that "t" and "=" are not white space: for a file whose
    text starts with "translation_dict =", the scan of the languages and
    the loader give the same text to the parser.  For a file in which white
    space stands in front of "translation_dict =", the scan parses what
    follows the "=", and lists the language if that succeeds, while the
    loader gives the whole text of the file to the parser. *)
Theorem listed_and_loaded_literal `{Unicode}
    (t_not_space : is_space 116 = false)
    (equals_not_space : is_space 61 = false)
    (file_content : str) :
  (startswith file_content (lit "translation_dict =") = true →
   listed_literal file_content = Some (loaded_literal file_content)) ∧
  (∀ ws rest,
     ws ≠ [] → Forall (λ c, is_space c = true) ws →
     file_content = ws ++ lit "translation_dict =" ++ rest →
     listed_literal file_content = Some (strip rest) ∧
     loaded_literal file_content = file_content).
Proof.
  assert (∀ rest, listed_literal (lit "translation_dict =" ++ rest)
                  = Some (strip rest)) as Hlisted.
  { intros rest.
    assert (strip (lit "translation_dict =" ++ rest)
            = lit "translation_dict =" ++ rstrip rest) as Hstrip.
    { unfold strip.
      change (lit "translation_dict =" ++ rest)
        with (116%N :: (lit "ranslation_dict =" ++ rest)).
      rewrite lstrip_nonspace by done.
      change (116%N :: (lit "ranslation_dict =" ++ rest))
        with (lit "translation_dict " ++ 61%N :: rest).
      by rewrite rstrip_app_nonspace. }
    unfold listed_literal. cbv zeta. rewrite Hstrip.
    by rewrite startswith_app, drop_app_length, strip_rstrip. }
  split.
  - intros Hstart. unfold loaded_literal. rewrite Hstart.
    rewrite (startswith_inv _ _ Hstart) at 1. apply Hlisted.
  - intros ws rest Hne Hws ->. split.
    + rewrite <- Hlisted. unfold listed_literal, strip.
      by rewrite lstrip_app_space.
    + unfold loaded_literal, startswith.
      rewrite bool_decide_eq_false_2; [done|].
      destruct ws as [|c ws]; [done|]. apply Forall_inv in Hws.
      change (length (lit "translation_dict =")) with 18.
      change (lit "translation_dict =") with (116%N :: lit "ranslation_dict =").
      cbn [app take]. intros [= -> _]. congruence.
Qed.

Lemma listed_and_loaded_literal_witness :
  listed_literal (lit "translation_dict = {'you': 'yu'} ")
  = Some (loaded_literal (lit "translation_dict = {'you': 'yu'} ")) ∧
  listed_literal (lit " translation_dict = {'you': 'yu'}")
  = Some (lit "{'you': 'yu'}") ∧
  loaded_literal (lit " translation_dict = {'you': 'yu'}")
  = lit " translation_dict = {'you': 'yu'}".
Proof.
  split.
  - by apply (listed_and_loaded_literal (H := ascii_tables)).
  - apply (proj2 (listed_and_loaded_literal (H := ascii_tables)
                    eq_refl eq_refl (lit " translation_dict = {'you': 'yu'}"))
             (lit " ") (lit " {'you': 'yu'}")).
    + done.
    + by repeat constructor.
    + reflexivity.
Defined.
